(** * twisted.runner.procmon: the process monitor and its output logger

    A shallow embedding of [src/twisted/runner/procmon.py]: the
    [LoggingProtocol] that turns a child's output into log lines, and the
    [ProcessMonitor] service that starts, stops and restarts named child
    processes with an exponential back-off.

    Python objects that are mutated in place (the monitor, the reactor's
    delayed calls, the protocol instances) live in one explicit store, the
    record [World]; a method is a function in the state-and-exception monad
    [M] over that store.  Times are rationals. *)

From Stdlib Require Import QArith Lqa.
From Stdlib.Strings Require Import Byte.
From stdpp Require Import base option list gmap strings.

#[local] Set Warnings "-clear-no-such-hyp".

Local Open Scope Z_scope.

(** ** Python values needed by the logger *)

Abbreviation bytes := (list Byte.byte).

(** A [bytes] literal from an ASCII string. *)
Definition bytes_lit (s : string) : bytes := String.list_byte_of_string s.

Definition bytes_eqb (x y : bytes) : bool :=
  bool_decide (map Byte.to_N x = map Byte.to_N y).

(** The two kinds of object that meet in [data[-1] == b'\n']. *)
Inductive pyval :=
| PyInt (n : Z)
| PyBytes (s : bytes).

(** [==] between an [int] and a [bytes] object is [False]. *)
Definition py_eq (x y : pyval) : bool :=
  match x, y with
  | PyInt n, PyInt m => Z.eqb n m
  | PyBytes s, PyBytes t => bytes_eqb s t
  | _, _ => false
  end.

(** [data[-1]] on a [bytes] object: the last byte as an [int]; [None] stands
    for the [IndexError] on an empty object. *)
Definition bytes_getitem_last (data : bytes) : option pyval :=
  (λ c, PyInt (Z.of_N (Byte.to_N c))) <$> last data.

(** [data[-1]] on a Python 2 [str]: a string of length one. *)
Definition str_getitem_last (data : bytes) : option pyval :=
  (λ c, PyBytes [c]) <$> last data.

(** ** Exceptions and results *)

Inductive Exn :=
| KeyError
| IndexError
| AttributeError
| ProcessExitedAlready.

Inductive Res (A : Type) :=
| Ok (a : A)
| Raise (e : Exn).
Arguments Ok {A} a.
Arguments Raise {A} e.

(** ** The store *)

(** [_Process]: the details of a process to be restarted. *)
Record _Process := mk_Process {
  args : list string;
  uid : option Z;
  gid : option Z;
  env : gmap string string;
  cwd : option string
}.

Inductive Signal := TERM | KILL.

(** What a delayed call runs: the monitor only ever schedules
    [self.startProcess, name] and [self._forceStopProcess, proc]. *)
Inductive Callback :=
| CbStartProcess (name : string)
| CbForceStopProcess (proc : nat).

(** Modelled from the spec: the timer collaborator's cancellable handle
    ([twisted.internet.base.DelayedCall] is not among the sources).  A handle
    is pending until it is cancelled or has fired. *)
Record DelayedCall := mkDelayedCall {
  dc_time : Q;
  dc_func : Callback;
  dc_cancelled : bool;
  dc_called : bool
}.

(** [Alive]: running.  [Exited]: the child is gone (signalling it fails) but
    the exit has not been reported yet.  [Ended]: [processEnded] has been
    delivered. *)
Inductive ProcStatus := Alive | Exited | Ended.

#[global] Instance ProcStatus_eq_dec : EqDecision ProcStatus.
Proof. solve_decision. Defined.

(** Modelled from the spec: the spawn collaborator's process handle
    ([IProcessTransport]; the reactor is not among the sources).  It keeps
    what the process was spawned with and the signals sent to it. *)
Record ProcessTransport := mkTransport {
  t_status : ProcStatus;
  t_signals : list Signal;
  t_executable : string;
  t_process : _Process
}.

(** [LineLogger]: a line receiver with delimiter [b'\n'], its tag and the
    bytes buffered so far. *)
Record LineLogger := mkLineLogger {
  tag : string;
  _buffer : bytes
}.

(** A [LoggingProtocol] instance.  [lp_empty] starts at the class attribute
    [empty = 1]; [lp_output] is set by [connectionMade] and [lp_transport]
    by the reactor when the process is spawned. *)
Record LoggingProtocol := mkLoggingProtocol {
  lp_name : string;
  lp_empty : bool;
  lp_output : option LineLogger;
  lp_transport : option ProcessTransport
}.

(** One message handed to [log.msg] by [LineLogger.lineReceived]: it stands
    for the text [[tag] line], where the line is decoded as UTF-8 or, when
    that fails, shown by [repr]. *)
Record LogMsg := mkLogMsg {
  msg_tag : string;
  msg_line : bytes
}.

(** The class attributes of [ProcessMonitor]; an instance may override
    them, no method assigns them. *)
Record Config := mkConfig {
  threshold : Q;
  killTime : Q;
  minRestartDelay : Q;
  maxRestartDelay : Q
}.

Definition defaults : Config :=
  {| threshold := 1; killTime := 5; minRestartDelay := 1;
     maxRestartDelay := 3600 |}.

(** The monitor's instance attributes, then its reactor (clock and delayed
    calls), the protocol instances it has created, and the log.  The dict
    [self._processes] is walked by three methods, in the order in which its
    keys were inserted: [_processes] maps its keys and [_order] lists them
    in that order. *)
Record World := mkWorld {
  running : bool;
  _processes : gmap string _Process;
  _order : list string;
  protocols : gmap string nat;
  delay : gmap string Q;
  timeStarted : gmap string Q;
  murder : gmap string nat;
  restart : gmap string nat;
  rightNow : Q;
  calls : list DelayedCall;
  protos : list LoggingProtocol;
  logged : list LogMsg
}.

(** [ProcessMonitor.__init__], with a reactor whose clock reads 0. *)
Definition init : World :=
  {| running := false; _processes := ∅; _order := []; protocols := ∅;
     delay := ∅; timeStarted := ∅; murder := ∅; restart := ∅;
     rightNow := 0%Q; calls := []; protos := []; logged := [] |}.

Definition set_running (v : bool) (w : World) : World :=
  mkWorld v (_processes w) (_order w) (protocols w) (delay w) (timeStarted w)
    (murder w) (restart w) (rightNow w) (calls w) (protos w) (logged w).
Definition set_processes (f : gmap string _Process → gmap string _Process)
    (w : World) : World :=
  mkWorld (running w) (f (_processes w)) (_order w) (protocols w) (delay w)
    (timeStarted w) (murder w) (restart w) (rightNow w) (calls w) (protos w)
    (logged w).
Definition set_order (f : list string → list string) (w : World) : World :=
  mkWorld (running w) (_processes w) (f (_order w)) (protocols w) (delay w)
    (timeStarted w) (murder w) (restart w) (rightNow w) (calls w) (protos w)
    (logged w).
Definition set_protocols (f : gmap string nat → gmap string nat)
    (w : World) : World :=
  mkWorld (running w) (_processes w) (_order w) (f (protocols w)) (delay w)
    (timeStarted w) (murder w) (restart w) (rightNow w) (calls w) (protos w)
    (logged w).
Definition set_delay (f : gmap string Q → gmap string Q) (w : World) : World :=
  mkWorld (running w) (_processes w) (_order w) (protocols w) (f (delay w))
    (timeStarted w) (murder w) (restart w) (rightNow w) (calls w) (protos w)
    (logged w).
Definition set_timeStarted (f : gmap string Q → gmap string Q)
    (w : World) : World :=
  mkWorld (running w) (_processes w) (_order w) (protocols w) (delay w)
    (f (timeStarted w)) (murder w) (restart w) (rightNow w) (calls w)
    (protos w) (logged w).
Definition set_murder (f : gmap string nat → gmap string nat)
    (w : World) : World :=
  mkWorld (running w) (_processes w) (_order w) (protocols w) (delay w)
    (timeStarted w) (f (murder w)) (restart w) (rightNow w) (calls w)
    (protos w) (logged w).
Definition set_restart (f : gmap string nat → gmap string nat)
    (w : World) : World :=
  mkWorld (running w) (_processes w) (_order w) (protocols w) (delay w)
    (timeStarted w) (murder w) (f (restart w)) (rightNow w) (calls w)
    (protos w) (logged w).
Definition set_rightNow (v : Q) (w : World) : World :=
  mkWorld (running w) (_processes w) (_order w) (protocols w) (delay w)
    (timeStarted w) (murder w) (restart w) v (calls w) (protos w) (logged w).
Definition set_calls (f : list DelayedCall → list DelayedCall)
    (w : World) : World :=
  mkWorld (running w) (_processes w) (_order w) (protocols w) (delay w)
    (timeStarted w) (murder w) (restart w) (rightNow w) (f (calls w))
    (protos w) (logged w).
Definition set_protos (f : list LoggingProtocol → list LoggingProtocol)
    (w : World) : World :=
  mkWorld (running w) (_processes w) (_order w) (protocols w) (delay w)
    (timeStarted w) (murder w) (restart w) (rightNow w) (calls w)
    (f (protos w)) (logged w).
Definition set_logged (f : list LogMsg → list LogMsg) (w : World) : World :=
  mkWorld (running w) (_processes w) (_order w) (protocols w) (delay w)
    (timeStarted w) (murder w) (restart w) (rightNow w) (calls w) (protos w)
    (f (logged w)).

(** [self._processes[name] = process]: a new key goes last. *)
Definition setitem_processes (name : string) (process : _Process)
    (w : World) : World :=
  set_order (λ l, if bool_decide (name ∈ l) then l else l ++ [name])
    (set_processes <[name := process]> w).

(** [del self._processes[name]], for a key that is there. *)
Definition delitem_processes (name : string) (w : World) : World :=
  set_order (filter (λ n, n ≠ name)) (set_processes (delete name) w).

(** The keys of [self._processes] as a loop over the dict visits them: in
    the order of insertion.  Keys that [_order] does not list would come
    last; a store the monitor can reach has none. *)
Definition dict_keys (w : World) : list string :=
  filter (λ n, is_Some (_processes w !! n)) (_order w)
  ++ filter (λ n, n ∉ _order w) (map_to_list (_processes w)).*1.

(** ** The monad of methods: state passing with exceptions

    A method that raises leaves the store as it was when the exception was
    raised: what it had already mutated stays mutated. *)

Definition M (A : Type) : Type := World → Res A * World.

Definition ret {A} (a : A) : M A := λ w, (Ok a, w).
Definition raise {A} (e : Exn) : M A := λ w, (Raise e, w).
Definition bind {A B} (m : M A) (k : A → M B) : M B :=
  λ w, match m w with
       | (Ok a, w') => k a w'
       | (Raise e, w') => (Raise e, w')
       end.
Definition gets {A} (f : World → A) : M A := λ w, (Ok (f w), w).
Definition modify (f : World → World) : M unit := λ w, (Ok tt, f w).

(** [try: m except ...]: the outcome of [m] as a value. *)
Definition try {A} (m : M A) : M (Res A) :=
  λ w, let (r, w') := m w in (Ok r, w').

Notation "x <- m ;; k" := (bind m (λ x, k))
  (at level 100, m at next level, right associativity).
Notation "m ;;; k" := (bind m (λ _, k))
  (at level 100, right associativity).

(** [for x in l: f(x)] *)
Fixpoint for_each {A} (l : list A) (f : A → M unit) : M unit :=
  match l with
  | [] => ret tt
  | x :: l' => f x ;;; for_each l' f
  end.

(** [d[k]]: raises [KeyError] when the key is missing. *)
Definition getitem {V} (d : World → gmap string V) (k : string) : M V :=
  λ w, match d w !! k with
       | Some v => (Ok v, w)
       | None => (Raise KeyError, w)
       end.

(** Python's [a < b] and [min(a, b)] on numbers: [min] returns its first
    argument unless the second is strictly smaller. *)
Definition Qltb (x y : Q) : bool := negb (Qle_bool y x).
Definition py_min (x y : Q) : Q := if Qltb y x then y else x.

(** ** The collaborators *)

(** Modelled from the spec: the clock and timer collaborator ([now()] and
    [after(duration, callback)]; the reactor is not among the sources). *)
Definition seconds : M Q := gets rightNow.

Definition callLater (d : Q) (f : Callback) : M nat :=
  now <- seconds ;;
  dc <- gets (λ w, length (calls w)) ;;
  modify (set_calls (λ l, l ++ [mkDelayedCall (now + d)%Q f false false])) ;;;
  ret dc.

Definition dc_active (c : DelayedCall) : bool :=
  negb (dc_cancelled c || dc_called c).

(** Whether the delayed call behind a handle is still pending. *)
Definition pending (w : World) (dc : nat) : bool :=
  from_option dc_active false (calls w !! dc).

Definition active (dc : nat) : M bool := gets (λ w, pending w dc).

Definition mark_cancelled (c : DelayedCall) : DelayedCall :=
  mkDelayedCall (dc_time c) (dc_func c) true (dc_called c).
Definition mark_called (c : DelayedCall) : DelayedCall :=
  mkDelayedCall (dc_time c) (dc_func c) (dc_cancelled c) true.

Definition cancel (dc : nat) : M unit :=
  modify (set_calls (alter mark_cancelled dc)).

(** [if delayedCall.active(): delayedCall.cancel()] *)
Definition cancel_if_active (delayedCall : nat) : M unit :=
  a <- active delayedCall ;;
  if a then cancel delayedCall else ret tt.

(** The protocol instances: allocation, attribute reads and writes. *)
Definition new_LoggingProtocol (name : string) : M nat :=
  proto <- gets (λ w, length (protos w)) ;;
  modify (set_protos (λ l, l ++ [mkLoggingProtocol name true None None])) ;;;
  ret proto.

Definition get_proto (proto : nat) : M LoggingProtocol :=
  λ w, match protos w !! proto with
       | Some p => (Ok p, w)
       | None => (Raise AttributeError, w)
       end.

Definition update_proto (proto : nat)
    (f : LoggingProtocol → LoggingProtocol) : M unit :=
  modify (set_protos (alter f proto)).

Definition set_empty (v : bool) (p : LoggingProtocol) : LoggingProtocol :=
  mkLoggingProtocol (lp_name p) v (lp_output p) (lp_transport p).
Definition set_output (o : option LineLogger)
    (p : LoggingProtocol) : LoggingProtocol :=
  mkLoggingProtocol (lp_name p) (lp_empty p) o (lp_transport p).
Definition set_transport (t : option ProcessTransport)
    (p : LoggingProtocol) : LoggingProtocol :=
  mkLoggingProtocol (lp_name p) (lp_empty p) (lp_output p) t.

(** Modelled from the spec: the line buffering of the Output Line Logger
    ([twisted.protocols.basic.LineReceiver] is not among the sources): bytes
    are buffered until the delimiter is found, and every complete line is
    handed to [lineReceived].  [split_lines buf data] returns the complete
    lines of [buf ++ data], where [buf] holds no delimiter, and the rest. *)
Fixpoint split_lines (buf data : bytes) : list bytes * bytes :=
  match data with
  | [] => ([], buf)
  | c :: data' =>
      if Byte.eqb c x0a
      then let (ls, r) := split_lines [] data' in (buf :: ls, r)
      else split_lines (buf ++ [c]) data'
  end.

(** [LineLogger.lineReceived] *)
Definition lineReceived (tag : string) (line : bytes) : M unit :=
  modify (set_logged (λ l, l ++ [mkLogMsg tag line])).

(** [self.output.dataReceived(data)] for the protocol instance [proto]. *)
Definition dataReceived (proto : nat) (data : bytes) : M unit :=
  p <- get_proto proto ;;
  match lp_output p with
  | None => raise AttributeError
  | Some out =>
      let (ls, r) := split_lines (_buffer out) data in
      update_proto proto (set_output (Some (mkLineLogger (tag out) r))) ;;;
      for_each ls (lineReceived (tag out))
  end.

(** [LoggingProtocol.connectionMade] *)
Definition connectionMade (proto : nat) : M unit :=
  p <- get_proto proto ;;
  update_proto proto (set_output (Some (mkLineLogger (lp_name p) []))).

(** Modelled from the spec: the spawn collaborator.  The new process is
    connected to the protocol, which is told so. *)
Definition spawnProcess (proto : nat) (executable : string)
    (process : _Process) : M unit :=
  update_proto proto
    (set_transport (Some (mkTransport Alive [] executable process))) ;;;
  connectionMade proto.

(** Modelled from the spec: [signal(kind)] on a process handle fails with
    [ProcessExitedAlready] when the process is no longer running. *)
Definition signalProcess (proc : nat) (sig : Signal) : M unit :=
  p <- get_proto proc ;;
  match lp_transport p with
  | None => raise AttributeError
  | Some t =>
      match t_status t with
      | Alive =>
          update_proto proc (set_transport (Some
            (mkTransport Alive (t_signals t ++ [sig]) (t_executable t)
               (t_process t))))
      | _ => raise ProcessExitedAlready
      end
  end.

(** ** LoggingProtocol *)

(** [outReceived], for a given reading of [data[-1]]. *)
Definition outReceived_with (getitem_last : bytes → option pyval)
    (proto : nat) (data : bytes) : M unit :=
  dataReceived proto data ;;;
  match getitem_last data with
  | None => raise IndexError
  | Some c => update_proto proto (set_empty (py_eq c (PyBytes [x0a])))
  end.

(** [LoggingProtocol.outReceived]: [data] is a [bytes] object. *)
Definition outReceived : nat → bytes → M unit :=
  outReceived_with bytes_getitem_last.

Definition errReceived : nat → bytes → M unit := outReceived.

(** ** ProcessMonitor *)

Section ProcessMonitor.

Variable cfg : Config.

(** [ProcessMonitor.startProcess] *)
Definition startProcess (name : string) : M unit :=
  ps <- gets protocols ;;
  if bool_decide (is_Some (ps !! name)) then ret tt else
  process <- getitem _processes name ;;
  proto <- new_LoggingProtocol name ;;
  modify (set_protocols <[name := proto]>) ;;;
  now <- seconds ;;
  modify (set_timeStarted <[name := now]>) ;;;
  match args process with
  | [] => raise IndexError
  | executable :: _ => spawnProcess proto executable process
  end.

(** [ProcessMonitor.addProcess] *)
Definition addProcess (name : string) (args : list string)
    (uid gid : option Z) (env : gmap string string)
    (cwd : option string) : M unit :=
  ps <- gets _processes ;;
  if bool_decide (is_Some (ps !! name)) then raise KeyError else
  modify (setitem_processes name (mk_Process args uid gid env cwd)) ;;;
  modify (set_delay <[name := minRestartDelay cfg]>) ;;;
  r <- gets running ;;
  if r then startProcess name else ret tt.

(** [ProcessMonitor._forceStopProcess] *)
Definition _forceStopProcess (proc : nat) : M unit :=
  r <- try (signalProcess proc KILL) ;;
  match r with
  | Raise ProcessExitedAlready => ret tt
  | Raise e => raise e
  | Ok _ => ret tt
  end.

(** [ProcessMonitor.stopProcess] *)
Definition stopProcess (name : string) : M unit :=
  ps <- gets _processes ;;
  if bool_decide (ps !! name = None) then raise KeyError else
  proto <- gets (λ w, protocols w !! name) ;;
  match proto with
  | None => ret tt
  | Some proc =>
      r <- try (signalProcess proc TERM) ;;
      match r with
      | Raise ProcessExitedAlready => ret tt
      | Raise e => raise e
      | Ok _ =>
          dc <- callLater (killTime cfg) (CbForceStopProcess proc) ;;
          modify (set_murder <[name := dc]>)
      end
  end.

(** [ProcessMonitor.removeProcess] *)
Definition removeProcess (name : string) : M unit :=
  stopProcess name ;;;
  getitem _processes name ;;;
  modify (delitem_processes name).

(** Modelled from the spec: [service.Service.startService] and
    [stopService] mark the service active and inactive (the class is not
    among the sources). *)
Definition Service_startService : M unit := modify (set_running true).
Definition Service_stopService : M unit := modify (set_running false).

(** [ProcessMonitor.startService]: [for name in self._processes] walks the
    dict in the order of insertion (Python 3.7 on). *)
Definition startService : M unit :=
  Service_startService ;;;
  names <- gets dict_keys ;;
  for_each names startProcess.

(** [ProcessMonitor.stopService].  The first loop walks the items of
    [self.restart]; cancelling delayed calls in one order or another gives
    the same store ([cancel_restarts_perm] below), so that the order of
    this dict is not kept. *)
Definition stopService : M unit :=
  Service_stopService ;;;
  rs <- gets restart ;;
  for_each (map_to_list rs) (λ '(name, delayedCall),
    cancel_if_active delayedCall) ;;;
  names <- gets dict_keys ;;
  for_each names stopProcess.

(** [ProcessMonitor.connectionLost] *)
Definition connectionLost (name : string) : M unit :=
  m <- gets murder ;;
  match m !! name with
  | Some dc =>
      cancel_if_active dc ;;;
      modify (set_murder (delete name))
  | None => ret tt
  end ;;;
  getitem protocols name ;;;
  modify (set_protocols (delete name)) ;;;
  now <- seconds ;;
  started <- getitem timeStarted name ;;
  nextDelay <-
    (if Qltb (now - started) (threshold cfg) then
       nextDelay <- getitem delay name ;;
       d <- getitem delay name ;;
       modify (set_delay <[name := py_min (d * 2) (maxRestartDelay cfg)]>) ;;;
       ret nextDelay
     else
       modify (set_delay <[name := minRestartDelay cfg]>) ;;;
       ret 0%Q) ;;
  r <- gets running ;;
  ps <- gets _processes ;;
  if r && bool_decide (is_Some (ps !! name)) then
    dc <- callLater nextDelay (CbStartProcess name) ;;
    modify (set_restart <[name := dc]>)
  else ret tt.

(** [ProcessMonitor.restartAll] *)
Definition restartAll : M unit :=
  names <- gets dict_keys ;;
  for_each names stopProcess.

(** [LoggingProtocol.processEnded]: [self.service] is the monitor. *)
Definition processEnded (proto : nat) : M unit :=
  p <- get_proto proto ;;
  (if lp_empty p then ret tt else dataReceived proto [x0a]) ;;;
  connectionLost (lp_name p).

(** ** The event loop

    What the single-threaded reactor delivers to the monitor: calls of its
    public methods, the passing of time, delayed calls that fire, and what a
    child process does. *)

Inductive Event :=
| EvAddProcess (name : string) (args : list string) (uid gid : option Z)
    (env : gmap string string) (cwd : option string)
| EvRemoveProcess (name : string)
| EvStartService
| EvStopService
| EvStartProcess (name : string)
| EvStopProcess (name : string)
| EvRestartAll
| EvAdvance (amount : Q)
| EvFire (dc : nat)
| EvOutput (proto : nat) (data : bytes)
| EvExit (proto : nat)
| EvEnded (proto : nat).

(** The status of the process of a protocol instance, when it has one. *)
Definition status_of (w : World) (proto : nat) : option ProcStatus :=
  p ← protos w !! proto; t ← lp_transport p; Some (t_status t).

Definition set_status (s : ProcStatus) (proto : nat) : M unit :=
  update_proto proto (λ p,
    set_transport ((λ t, mkTransport s (t_signals t) (t_executable t)
                           (t_process t)) <$> lp_transport p) p).

(** A delayed call runs its function. *)
Definition run_callback (f : Callback) : M unit :=
  match f with
  | CbStartProcess name => startProcess name
  | CbForceStopProcess proc => _forceStopProcess proc
  end.

(** A pending delayed call whose time has come fires: it is marked as
    called, then runs. *)
Definition fire (dc : nat) : M unit :=
  modify (set_calls (alter mark_called dc)) ;;;
  cs <- gets calls ;;
  match cs !! dc with
  | Some c => run_callback (dc_func c)
  | None => ret tt
  end.

(** Whether the reactor can deliver the event in the store [w]. *)
Definition enabled (w : World) (ev : Event) : bool :=
  match ev with
  | EvAdvance amount => Qle_bool 0 amount
  | EvFire dc =>
      from_option (λ c, dc_active c && Qle_bool (dc_time c) (rightNow w))
        false (calls w !! dc)
  | EvOutput proto data =>
      bool_decide (status_of w proto = Some Alive
                   ∨ status_of w proto = Some Exited)
  | EvExit proto => bool_decide (status_of w proto = Some Alive)
  | EvEnded proto => bool_decide (status_of w proto = Some Exited)
  | _ => true
  end.

(** What the event does. *)
Definition deliver (ev : Event) : M unit :=
  match ev with
  | EvAddProcess name args uid gid env cwd =>
      addProcess name args uid gid env cwd
  | EvRemoveProcess name => removeProcess name
  | EvStartService => startService
  | EvStopService => stopService
  | EvStartProcess name => startProcess name
  | EvStopProcess name => stopProcess name
  | EvRestartAll => restartAll
  | EvAdvance amount => modify (λ w, set_rightNow (rightNow w + amount)%Q w)
  | EvFire dc => fire dc
  | EvOutput proto data => outReceived proto data
  | EvExit proto => set_status Exited proto
  | EvEnded proto => set_status Ended proto ;;; processEnded proto
  end.

(** One turn of the loop; an exception raised by the event goes to its
    caller or to the reactor's log, the store stays as the event left it. *)
Definition step (ev : Event) (w : World) : option World :=
  if enabled w ev then Some (deliver ev w).2 else None.

Fixpoint run (evs : list Event) (w : World) : option World :=
  match evs with
  | [] => Some w
  | ev :: evs' => w' ← step ev w; run evs' w'
  end.

(** The stores the monitor can be in. *)
Definition reachable (w : World) : Prop := ∃ evs, run evs init = Some w.

End ProcessMonitor.

(** ** Observations on a store *)

(** The signals sent so far to the process of a protocol instance. *)
Definition signals_of (w : World) (proto : nat) : list Signal :=
  from_option t_signals [] (protos w !! proto ≫= lp_transport).

(** The delayed call behind the handle that one of the monitor's tables
    ([murder], [restart]) keeps for a name. *)
Definition timer (table : World → gmap string nat) (w : World)
    (name : string) : option DelayedCall :=
  table w !! name ≫= λ dc, calls w !! dc.

(** A process has been spawned for the protocol instance and its end has
    not been reported yet. *)
Definition live (w : World) (proto : nat) : Prop :=
  status_of w proto = Some Alive ∨ status_of w proto = Some Exited.

(** Every protocol instance the monitor keeps has its process. *)
Definition connected (w : World) : Prop :=
  ∀ name proto, protocols w !! name = Some proto →
    is_Some (status_of w proto).

(** The store after a spawn for [name]. *)
Definition spawned (name : string) (executable : string)
    (process : _Process) (w : World) : World :=
  set_protos (λ l, l ++ [mkLoggingProtocol name true
                           (Some (mkLineLogger name []))
                           (Some (mkTransport Alive [] executable process))])
    (set_timeStarted <[name := rightNow w]>
      (set_protocols <[name := length (protos w)]> w)).

(** The store once [name] is registered. *)
Definition registered (cfg : Config) (name : string) (process : _Process)
    (w : World) : World :=
  set_delay <[name := minRestartDelay cfg]>
    (setitem_processes name process w).

(** The delay before the next restart and the new back-off of a process
    that ran for [elapsed] seconds with back-off [d]. *)
Definition next_delay (cfg : Config) (elapsed d : Q) : Q * Q :=
  if Qltb elapsed (threshold cfg)
  then (d, py_min (d * 2) (maxRestartDelay cfg))
  else (0%Q, minRestartDelay cfg).

(** ** Invariants *)

(** Every back-off lies between the two bounds. *)
Definition inv_delay (cfg : Config) (w : World) : Prop :=
  ∀ name d, delay w !! name = Some d →
    (minRestartDelay cfg <= d)%Q ∧ (d <= maxRestartDelay cfg)%Q.

(** A process whose end has not been reported is the one the monitor keeps
    under its name. *)
Definition inv_live (w : World) : Prop :=
  ∀ proto, live w proto →
    ∃ p, protos w !! proto = Some p ∧ protocols w !! lp_name p = Some proto.

(** The same, on the two attributes it depends on. *)
Definition proto_live (p : LoggingProtocol) : bool :=
  match lp_transport p with
  | Some t => match t_status t with Ended => false | _ => true end
  | None => false
  end.

Definition live_ok (ps : list LoggingProtocol) (m : gmap string nat) : Prop :=
  ∀ i p, ps !! i = Some p → proto_live p = true → m !! lp_name p = Some i.

(** [inv_live], and no live process is left under [name]. *)
Definition live_except (name : string) (w : World) : Prop :=
  live_ok (protos w) (protocols w)
  ∧ ∀ i p, protos w !! i = Some p → proto_live p = true → lp_name p ≠ name.

(** A protocol instance that has its process has its line logger. *)
Definition inv_output (w : World) : Prop :=
  ∀ i p, protos w !! i = Some p →
    is_Some (lp_transport p) → is_Some (lp_output p).

(** A kill timer is kept only for a name that has a protocol instance. *)
Definition inv_murder (w : World) : Prop :=
  ∀ name, is_Some (murder w !! name) → is_Some (protocols w !! name).

(** Nothing but the flags of the reactor's delayed calls differs. *)
Definition calls_only (w w' : World) : Prop :=
  running w' = running w ∧ _processes w' = _processes w
  ∧ _order w' = _order w
  ∧ protocols w' = protocols w ∧ delay w' = delay w
  ∧ timeStarted w' = timeStarted w ∧ murder w' = murder w
  ∧ restart w' = restart w ∧ rightNow w' = rightNow w
  ∧ protos w' = protos w ∧ logged w' = logged w
  ∧ length (calls w') = length (calls w)
  ∧ ∀ dc, pending w dc = false → pending w' dc = false.

(** What stopping processes leaves alone: the registry, the protocol
    table, the restart timers, the clock, the status of every process, the
    signals already sent and the delayed calls already made. *)
Definition stop_frame (w w' : World) : Prop :=
  running w' = running w ∧ _processes w' = _processes w
  ∧ protocols w' = protocols w ∧ restart w' = restart w
  ∧ rightNow w' = rightNow w
  ∧ (∀ proto, status_of w' proto = status_of w proto)
  ∧ (∀ proto sig, sig ∈ signals_of w proto → sig ∈ signals_of w' proto)
  ∧ (∀ dc c, calls w !! dc = Some c → calls w' !! dc = Some c).

(** [TERM] has been sent to the process kept under [name], and the kill
    timer kept under [name] is due [killTime] after [t]. *)
Definition term_sent (cfg : Config) (t : Q) (name : string) (proc : nat)
    (w : World) : Prop :=
  TERM ∈ signals_of w proc
  ∧ timer murder w name = Some (mkDelayedCall (t + killTime cfg)
                                  (CbForceStopProcess proc) false false).

(** Every restart timer the monitor keeps is a call of its reactor. *)
Definition inv_restart (w : World) : Prop :=
  ∀ name dc, restart w !! name = Some dc → (dc < length (calls w))%nat.

(** [m] keeps [P], whatever it returns or raises. *)
Definition preserves (P : World → Prop) {A} (m : M A) : Prop :=
  ∀ w, P w → P (m w).2.

(** What is left to show for a property to hold after every event. *)
Record step_obligations (P : World → Prop) (cfg : Config) : Prop := {
  ob_startProcess : ∀ name, preserves P (startProcess name);
  ob_stopProcess : ∀ name, preserves P (stopProcess cfg name);
  ob_forceStopProcess : ∀ proc, preserves P (_forceStopProcess proc);
  ob_outReceived : ∀ proto data, preserves P (outReceived proto data);
  ob_exit : ∀ proto w, P w → status_of w proto = Some Alive →
     P (set_status Exited proto w).2;
  ob_ended : ∀ proto w, P w → status_of w proto = Some Exited →
     P ((set_status Ended proto ;;; processEnded cfg proto) w).2;
  ob_running : ∀ v w, P w → P (set_running v w);
  ob_processes : ∀ f w, P w → P (set_processes f w);
  ob_order : ∀ f w, P w → P (set_order f w);
  ob_delay : ∀ name w, P w → P (set_delay <[name := minRestartDelay cfg]> w);
  ob_rightNow : ∀ v w, P w → P (set_rightNow v w);
  ob_cancel : ∀ dc w, P w → pending w dc = true → P (cancel dc w).2;
  ob_called : ∀ dc w, P w → pending w dc = true →
    P (set_calls (alter mark_called dc) w)
}.

(** [_order] lists the keys of [_processes], each once. *)
Definition inv_order (w : World) : Prop :=
  NoDup (_order w) ∧ ∀ n, n ∈ _order w ↔ is_Some (_processes w !! n).

(** The event registers [name]. *)
Definition adds (name : string) (ev : Event) : bool :=
  match ev with
  | EvAddProcess name' _ _ _ _ _ => bool_decide (name' = name)
  | _ => false
  end.

(** No process has been spawned for [name] between [w] and [w']: every
    protocol instance of [name] in [w'] was there in [w], and it has a
    process only if it had one in [w]. *)
Definition no_spawn (name : string) (w w' : World) : Prop :=
  ∀ proto p, protos w' !! proto = Some p → lp_name p = name →
    ∃ p0, protos w !! proto = Some p0
      ∧ (is_Some (lp_transport p) → is_Some (lp_transport p0)).

(** [name] is not registered, and nothing was spawned for it since [w0]. *)
Definition unregistered_since (name : string) (w0 w : World) : Prop :=
  _processes w !! name = None ∧ no_spawn name w0 w.

(** ** Scenarios *)

(** The store after a sequence of events, from a fresh monitor. *)
Definition after (cfg : Config) (evs : list Event) : World :=
  default init (run cfg evs init).

Definition add_foo : Event :=
  EvAddProcess "foo" ["foo"] None None ∅ None.

(** A process runs for 0.2 s, exits, and its end is reported. *)
Definition fast_exit (proto : nat) : list Event :=
  [EvAdvance (1 # 5); EvExit proto; EvEnded proto].

(** [minRestartDelay = 1], [threshold = 1], [maxRestartDelay = 60]. *)
Definition scenario_cfg : Config :=
  {| threshold := 1; killTime := 5; minRestartDelay := 1;
     maxRestartDelay := 60 |}.

(** In the store [w], reached when an exit has just been reported, the
    restart of [name] is due [d] seconds later and its back-off is [d']. *)
Definition restart_in (w : World) (name : string) (d d' : Q) : Prop :=
  timer restart w name =
    Some (mkDelayedCall (rightNow w + d) (CbStartProcess name) false false)
  ∧ delay w !! name = Some d'.

(** Three exits after 0.2 s each, every restart fired when it is due, then
    an exit after 2 s. *)
Definition exits1 : list Event := [add_foo; EvStartService] ++ fast_exit 0.
Definition exits2 : list Event :=
  exits1 ++ [EvAdvance 1; EvFire 0] ++ fast_exit 1.
Definition exits3 : list Event :=
  exits2 ++ [EvAdvance 2; EvFire 1] ++ fast_exit 2.
Definition exits4 : list Event :=
  exits3 ++ [EvAdvance 4; EvFire 2; EvAdvance 2; EvExit 3; EvEnded 3].

Definition backoff_scenario : Prop :=
  is_Some (run scenario_cfg exits4 init)
  ∧ restart_in (after scenario_cfg exits1) "foo" 1 2
  ∧ restart_in (after scenario_cfg exits2) "foo" 2 4
  ∧ restart_in (after scenario_cfg exits3) "foo" 4 8
  ∧ restart_in (after scenario_cfg exits4) "foo" 0 1.

(** A crash loop: the process of each protocol instance from [proto] on
    exits after 0.2 s, and its restart is fired when the delay of the list
    has passed. *)
Fixpoint crash_loop (proto : nat) (ds : list Q) : list Event :=
  match ds with
  | [] => []
  | d :: ds' =>
      fast_exit proto ++ [EvAdvance d; EvFire proto]
      ++ crash_loop (S proto) ds'
  end.

(** The store after the crash loop and one more exit after 0.2 s. *)
Definition crashed (ds : list Q) : World :=
  after scenario_cfg ([add_foo; EvStartService] ++ crash_loop 0 ds
                      ++ fast_exit (length ds)).

(** With [maxRestartDelay = 60] the crash loop goes on: restarts after 8,
    16 and 32 s, and then after 60 s every time. *)
Definition capped_scenario : Prop :=
  restart_in (crashed [1; 2; 4]%Q) "foo" 8 16
  ∧ restart_in (crashed [1; 2; 4; 8]%Q) "foo" 16 32
  ∧ restart_in (crashed [1; 2; 4; 8; 16]%Q) "foo" 32 60
  ∧ restart_in (crashed [1; 2; 4; 8; 16; 32]%Q) "foo" 60 60
  ∧ restart_in (crashed [1; 2; 4; 8; 16; 32; 60]%Q) "foo" 60 60.

(** The back-off is 32, and [foo] has run for 0.2 s and exited; its end is
    not reported yet. *)
Definition w_backoff_32 : World :=
  after scenario_cfg ([add_foo; EvStartService]
                      ++ crash_loop 0 [1; 2; 4; 8; 16]%Q
                      ++ [EvAdvance (1 # 5); EvExit 5]).

(** The service was stopped while [foo] ran; [foo] has exited 0.2 s later
    and its end is not reported yet. *)
Definition w_stopping : World :=
  after scenario_cfg [add_foo; EvStartService; EvStopService;
                      EvAdvance (1 # 5); EvExit 0].

(** A monitor that runs the process [foo]. *)
Definition w_running : World := after defaults [add_foo; EvStartService].

(** [foo] has exited after 0.2 s and its restart timer is armed. *)
Definition w_restart_pending : World :=
  after defaults ([add_foo; EvStartService] ++ fast_exit 0).

(** [foo] has run for 0.2 s and exited; its end is not reported yet. *)
Definition w_exited : World :=
  after scenario_cfg [add_foo; EvStartService; EvAdvance (1 # 5); EvExit 0].

(** [foo] was asked to stop and exited a second later; its end is not
    reported yet. *)
Definition w_stopped : World :=
  after defaults [add_foo; EvStartService; EvStopProcess "foo"; EvAdvance 1;
                  EvExit 0].

(** [foo] is asked to stop twice, a second apart, exits a second later and
    is restarted at once; three more seconds pass: five seconds after the
    first request. *)
Definition stopped_twice : list Event :=
  [add_foo; EvStartService; EvStopProcess "foo"; EvAdvance 1;
   EvStopProcess "foo"; EvAdvance 1; EvExit 0; EvEnded 0; EvFire 2;
   EvAdvance 3].

(** [foo] exits at 0.2 s, is started by hand at 0.3 s while its restart is
    pending, exits again at 0.5 s; the service is stopped at once, and a
    second passes. *)
Definition started_by_hand : list Event :=
  [add_foo; EvStartService] ++ fast_exit 0
  ++ [EvAdvance (1 # 10); EvStartProcess "foo"] ++ fast_exit 1
  ++ [EvStopService; EvAdvance 1].

(** ... and [foo] has then been removed. *)
Definition w_removed : World :=
  after defaults ([add_foo; EvStartService] ++ fast_exit 0
                  ++ [EvRemoveProcess "foo"]).

(** [foo] has been removed while it ran. *)
Definition w_removed_running : World :=
  after defaults [add_foo; EvStartService; EvRemoveProcess "foo"].

(** ** Further observations *)

(** The entries of [name] in the monitor's six tables are the same in both
    stores. *)
Definition same_entries (name : string) (w w' : World) : Prop :=
  _processes w' !! name = _processes w !! name
  ∧ protocols w' !! name = protocols w !! name
  ∧ delay w' !! name = delay w !! name
  ∧ timeStarted w' !! name = timeStarted w !! name
  ∧ murder w' !! name = murder w !! name
  ∧ restart w' !! name = restart w !! name.

(** What starting processes leaves alone: the service flag, the registry,
    the back-offs, the timers, the clock and the log; the protocol
    instances that existed and the names that had one keep what they had. *)
Definition start_frame (w w' : World) : Prop :=
  running w' = running w ∧ _processes w' = _processes w
  ∧ delay w' = delay w ∧ murder w' = murder w ∧ restart w' = restart w
  ∧ rightNow w' = rightNow w ∧ calls w' = calls w ∧ logged w' = logged w
  ∧ (∀ proto p, protos w !! proto = Some p → protos w' !! proto = Some p)
  ∧ (∀ name proto, protocols w !! name = Some proto →
       protocols w' !! name = Some proto
       ∧ timeStarted w' !! name = timeStarted w !! name).

(** After starting, [name] has a protocol instance: the one it had, or one
    created since, whose process runs and was started at the time of [w]. *)
Definition started (name : string) (w w' : World) : Prop :=
  match protocols w !! name with
  | Some proto => protocols w' !! name = Some proto
  | None =>
      ∃ proto, protocols w' !! name = Some proto
        ∧ (length (protos w) ≤ proto)%nat
        ∧ status_of w' proto = Some Alive
        ∧ timeStarted w' !! name = Some (rightNow w)
  end.

(** The tables agree: a protocol kept under a name carries that name and
    has a start time, and every name that is registered or has a protocol
    has a back-off. *)
Definition inv_tables (w : World) : Prop :=
  (∀ name proto, protocols w !! name = Some proto →
     ∃ p, protos w !! proto = Some p ∧ lp_name p = name)
  ∧ (∀ name, is_Some (protocols w !! name) →
       is_Some (timeStarted w !! name))
  ∧ (∀ name, is_Some (protocols w !! name) ∨ is_Some (_processes w !! name)
       → is_Some (delay w !! name)).

(** The restart timer kept under a name starts that name; the kill timer
    kept under a name is for the process kept under that name. *)
Definition inv_timers (w : World) : Prop :=
  (∀ name dc, restart w !! name = Some dc →
     ∃ c, calls w !! dc = Some c ∧ dc_func c = CbStartProcess name)
  ∧ (∀ name dc, murder w !! name = Some dc →
       ∃ c proc, calls w !! dc = Some c
         ∧ dc_func c = CbForceStopProcess proc
         ∧ protocols w !! name = Some proc).

(** A logger carries the name of its protocol, and every message logged
    carries the name of a protocol the monitor created. *)
Definition inv_tags (w : World) : Prop :=
  (∀ proto p out, protos w !! proto = Some p → lp_output p = Some out →
     tag out = lp_name p)
  ∧ (∀ m, m ∈ logged w →
       ∃ proto p, protos w !! proto = Some p ∧ lp_name p = msg_tag m).

(** [w] with a running process [foo] and a registered process [bar] that
    has no arguments. *)
Definition w_no_args : World :=
  after defaults [EvAddProcess "bar" [] None None ∅ None; add_foo;
                  EvStartProcess "foo"].

(** Three names added in this order; the second has no arguments. *)
Definition w_three : World :=
  after defaults [EvAddProcess "zed" ["zed"] None None ∅ None;
                  EvAddProcess "bad" [] None None ∅ None;
                  EvAddProcess "abc" ["abc"] None None ∅ None].

(** [foo] runs and has written a line and the start of another. *)
Definition w_logged : World :=
  after defaults [add_foo; EvStartService;
                  EvOutput 0 (bytes_lit "up" ++ [x0a] ++ bytes_lit "and")].

(** ** Proof tools *)

Ltac munfold :=
  unfold stopProcess, startProcess, addProcess, removeProcess,
    _forceStopProcess, connectionLost, processEnded, outReceived,
    outReceived_with, dataReceived, spawnProcess, connectionMade,
    signalProcess, set_status, callLater, cancel_if_active, active, cancel,
    seconds,
    new_LoggingProtocol, get_proto, update_proto, getitem, try, bind, ret,
    raise, gets, modify in *.

Ltac wsimpl :=
  unfold setitem_processes, delitem_processes, set_running, set_processes,
    set_order, set_protocols, set_delay,
    set_timeStarted, set_murder, set_restart, set_rightNow, set_calls,
    set_protos, set_logged in *;
  simpl in *.

(** Run a method symbolically: one goal per path through it. *)
Ltac mrun :=
  munfold; simpl in *;
  repeat (first [ case_bool_decide | case_match ]; simplify_eq/=);
  try congruence.

(** Close an equation between closed terms by evaluation. *)
Ltac compute_eq := vm_compute; reflexivity.

(** Split a conjunction, and nothing else. *)
Ltac and_split := match goal with |- _ ∧ _ => split end.

Section Preserves.
Context (P : World → Prop).

Lemma preserves_ret {A} (a : A) : preserves P (ret a).
Proof. by intros w. Qed.

Lemma preserves_raise {A} e : preserves P (@raise A e).
Proof. by intros w. Qed.

Lemma preserves_gets {A} (f : World → A) : preserves P (gets f).
Proof. by intros w. Qed.

Lemma preserves_getitem {V} (d : World → gmap string V) k :
  preserves P (getitem d k).
Proof. intros w H. unfold getitem. by destruct (d w !! k). Qed.

Lemma preserves_get_proto proto : preserves P (get_proto proto).
Proof. intros w H. unfold get_proto. by destruct (protos w !! proto). Qed.

Lemma preserves_bind {A B} (m : M A) (k : A → M B) :
  preserves P m → (∀ a, preserves P (k a)) → preserves P (bind m k).
Proof.
  intros Hm Hk w H. unfold bind. specialize (Hm w H).
  destruct (m w) as [[a|e] w1]; simpl in *; [by apply Hk | done].
Qed.

Lemma preserves_try {A} (m : M A) : preserves P m → preserves P (try m).
Proof.
  intros Hm w H. unfold try. specialize (Hm w H). by destruct (m w).
Qed.

Lemma preserves_for_each {A} (l : list A) (f : A → M unit) :
  (∀ x, preserves P (f x)) → preserves P (for_each l f).
Proof.
  intros Hf. induction l as [|x l IH]; simpl.
  - apply preserves_ret.
  - apply preserves_bind; [apply Hf | done].
Qed.

End Preserves.

Ltac pres_step :=
  lazymatch goal with
  | |- preserves _ (ret _) => apply preserves_ret
  | |- preserves _ (raise _) => apply preserves_raise
  | |- preserves _ (gets _) => apply preserves_gets
  | |- preserves _ (getitem _ _) => apply preserves_getitem
  | |- preserves _ (get_proto _) => apply preserves_get_proto
  | |- preserves _ (bind _ _) => apply preserves_bind; [| intros ?]
  | |- preserves _ (try _) => apply preserves_try
  | |- preserves _ (for_each _ _) => apply preserves_for_each; intros ?
  | |- preserves _ (if ?b then _ else _) => destruct b
  | |- preserves _ (match ?x with _ => _ end) => destruct x
  | |- preserves _ (modify _) => intros ? ?; simpl
  end.

(** Split a method into the methods it calls. *)
Ltac pres :=
  repeat first
    [ match goal with
      | H : ∀ _, preserves _ _ |- _ => apply H
      | H : ∀ _ _, preserves _ _ |- _ => apply H
      end
    | pres_step ].

(** A property that every method of the monitor and every move of the
    environment keeps holds after every event. *)
Lemma step_preserves cfg P ev w w' :
  step_obligations P cfg → step cfg ev w = Some w' → P w → P w'.
Proof.
  intros [] Hs HP. unfold step in Hs.
  destruct (enabled w ev) eqn:Hen; [|done]. injection Hs as <-.
  assert (Hc : ∀ dc, preserves P (cancel_if_active dc)).
  { intros dc w0 H0. unfold cancel_if_active, bind, active, gets, ret. simpl.
    destruct (pending w0 dc) eqn:E; auto. }
  destruct ev; simpl in Hen |- *.
  - clear Hen. revert w HP.
    change (preserves P (addProcess cfg name args0 uid0 gid0 env0 cwd0)).
    unfold addProcess, setitem_processes. pres; auto.
  - clear Hen. revert w HP. change (preserves P (removeProcess cfg name)).
    unfold removeProcess, delitem_processes. pres; auto.
  - clear Hen. revert w HP. change (preserves P startService).
    unfold startService, Service_startService. pres; auto.
  - clear Hen. revert w HP. change (preserves P (stopService cfg)).
    unfold stopService, Service_stopService. pres; auto.
  - by apply ob_startProcess0.
  - by apply ob_stopProcess0.
  - clear Hen. revert w HP. change (preserves P (restartAll cfg)).
    unfold restartAll. pres; auto.
  - by apply ob_rightNow0.
  - unfold fire, bind, modify, gets. simpl.
    apply (ob_called0 dc) in HP.
    2:{ unfold pending. destruct (calls w !! dc); simpl in *; [|done].
        by apply andb_true_iff in Hen as [? _]. }
    destruct (alter _ dc (calls w) !! dc) as [c|]; [|done].
    destruct (dc_func c); simpl; [by apply ob_startProcess0
                                 | by apply ob_forceStopProcess0].
  - by apply ob_outReceived0.
  - apply ob_exit0; [done|]. by apply bool_decide_eq_true in Hen.
  - apply ob_ended0; [done|]. by apply bool_decide_eq_true in Hen.
Qed.

Lemma run_preserves cfg P evs w w' :
  step_obligations P cfg → run cfg evs w = Some w' → P w → P w'.
Proof.
  intros Hob. revert w. induction evs as [|ev evs IH]; simpl; intros w Hr HP.
  - by injection Hr as <-.
  - destruct (step cfg ev w) as [w1|] eqn:Hs; simpl in Hr; [|done].
    eapply IH; [done|]. by eapply step_preserves.
Qed.

Lemma run_app cfg evs1 evs2 w :
  run cfg (evs1 ++ evs2) w = run cfg evs1 w ≫= run cfg evs2.
Proof.
  revert w. induction evs1 as [|ev evs1 IH]; simpl; intros w; [done|].
  destruct (step cfg ev w); simpl; [apply IH | done].
Qed.

Lemma reachable_after cfg evs :
  is_Some (run cfg evs init) → reachable cfg (after cfg evs).
Proof. intros [w H]. exists evs. unfold after. by rewrite H. Qed.

(** A loop over [self._processes] visits the registered names. *)
Lemma elem_of_dict_keys w n :
  n ∈ dict_keys w ↔ is_Some (_processes w !! n).
Proof.
  unfold dict_keys. rewrite elem_of_app, !list_elem_of_filter. split.
  - intros [[H _]|[_ ([n' x] & -> & Hin)%list_elem_of_fmap]]; [done|].
    apply elem_of_map_to_list in Hin. by eexists.
  - intros [x Hx]. destruct (decide (n ∈ _order w)) as [Hin|Hin].
    + left. split; [by eexists | done].
    + right. split; [done|]. apply list_elem_of_fmap.
      exists (n, x). split; [done|]. by apply elem_of_map_to_list.
Qed.

(** ** The methods, case by case *)

Lemma status_of_Some w proto s :
  status_of w proto = Some s →
  ∃ p t, protos w !! proto = Some p ∧ lp_transport p = Some t
         ∧ t_status t = s.
Proof.
  unfold status_of. intros H.
  destruct (protos w !! proto) as [p|] eqn:Hp; simpl in H; [|done].
  destruct (lp_transport p) as [t|] eqn:Ht; simpl in H; [|done].
  exists p, t. repeat split; congruence.
Qed.

Lemma status_of_Some2 w proto s1 s2 :
  status_of w proto = Some s1 ∨ status_of w proto = Some s2 →
  ∃ p t, protos w !! proto = Some p ∧ lp_transport p = Some t
         ∧ (t_status t = s1 ∨ t_status t = s2).
Proof.
  intros [H|H]; apply status_of_Some in H as (p & t & ? & ? & ?);
    exists p, t; auto.
Qed.

(** ** stopProcess, case by case *)

Lemma stopProcess_unknown cfg name w :
  _processes w !! name = None → stopProcess cfg name w = (Raise KeyError, w).
Proof. intros H. by mrun. Qed.

Lemma stopProcess_not_live cfg name w :
  is_Some (_processes w !! name) → protocols w !! name = None →
  stopProcess cfg name w = (Ok tt, w).
Proof. intros [x H] H2. by mrun. Qed.

Lemma stopProcess_exited cfg name w proc :
  is_Some (_processes w !! name) → protocols w !! name = Some proc →
  status_of w proc = Some Exited ∨ status_of w proc = Some Ended →
  stopProcess cfg name w = (Ok tt, w).
Proof.
  intros [x H] H2 H3. apply status_of_Some2 in H3 as (p & t & Hp & Ht & H3).
  mrun; try done; intuition congruence.
Qed.

Lemma stopProcess_alive cfg name w proc :
  is_Some (_processes w !! name) → protocols w !! name = Some proc →
  status_of w proc = Some Alive →
  ∃ w', stopProcess cfg name w = (Ok tt, w')
    ∧ signals_of w' proc = signals_of w proc ++ [TERM]
    ∧ status_of w' proc = Some Alive
    ∧ murder w' = <[name := length (calls w)]> (murder w)
    ∧ calls w' = calls w ++ [mkDelayedCall (rightNow w + killTime cfg)
                               (CbForceStopProcess proc) false false]
    ∧ running w' = running w ∧ _processes w' = _processes w
    ∧ protocols w' = protocols w ∧ delay w' = delay w
    ∧ timeStarted w' = timeStarted w ∧ restart w' = restart w
    ∧ rightNow w' = rightNow w.
Proof.
  intros [x H] H2 H3. apply status_of_Some in H3 as (p & t & Hp & Ht & H3).
  unfold status_of, signals_of. mrun.
  eexists; split; [done|]. simpl.
  rewrite list_lookup_alter_eq. by simplify_option_eq.
Qed.

(** The kill timer's function: [KILL], unless the process is gone. *)
Lemma forceStopProcess_alive w proc :
  status_of w proc = Some Alive →
  ∃ w', _forceStopProcess proc w = (Ok tt, w')
    ∧ signals_of w' proc = signals_of w proc ++ [KILL].
Proof.
  intros H3. apply status_of_Some in H3 as (p & t & Hp & Ht & H3).
  unfold signals_of. mrun.
  eexists; split; [done|]. simpl.
  rewrite list_lookup_alter_eq. by simplify_option_eq.
Qed.

Lemma forceStopProcess_gone w proc :
  status_of w proc = Some Exited ∨ status_of w proc = Some Ended →
  _forceStopProcess proc w = (Ok tt, w).
Proof.
  intros H3. apply status_of_Some2 in H3 as (p & t & Hp & Ht & H3).
  mrun; try done; intuition congruence.
Qed.

(** ** startProcess, case by case *)

Lemma alter_snoc {A} (f : A → A) (l : list A) (x : A) :
  alter f (length l) (l ++ [x]) = l ++ [f x].
Proof.
  replace (length l) with (length l + 0)%nat by lia.
  by rewrite alter_app_r.
Qed.

Lemma lookup_snoc {A} (l : list A) (x : A) :
  (l ++ [x]) !! length l = Some x.
Proof. by rewrite lookup_app_r, Nat.sub_diag by lia. Qed.

Lemma startProcess_live name w :
  is_Some (protocols w !! name) → startProcess name w = (Ok tt, w).
Proof. intros H. by mrun. Qed.

Lemma startProcess_unregistered name w :
  protocols w !! name = None → _processes w !! name = None →
  startProcess name w = (Raise KeyError, w).
Proof. intros H1 H2. mrun. destruct H; congruence. Qed.

Lemma startProcess_spawns name w process executable rest :
  protocols w !! name = None → _processes w !! name = Some process →
  args process = executable :: rest →
  startProcess name w = (Ok tt, spawned name executable process w).
Proof.
  intros H1 H2 H3. munfold. simpl.
  case_bool_decide as Hb; [destruct Hb; congruence|].
  rewrite H2, H3. unfold spawned. wsimpl.
  rewrite alter_snoc, lookup_snoc. simpl. rewrite alter_snoc. done.
Qed.

Lemma startProcess_no_args name w process :
  protocols w !! name = None → _processes w !! name = Some process →
  args process = [] →
  startProcess name w =
    (Raise IndexError,
     set_timeStarted <[name := rightNow w]>
       (set_protocols <[name := length (protos w)]>
          (set_protos (λ l, l ++ [mkLoggingProtocol name true None None])
             w))).
Proof.
  intros H1 H2 H3. munfold. simpl.
  case_bool_decide as Hb; [destruct Hb; congruence|].
  by rewrite H2, H3.
Qed.

(** ** addProcess, case by case *)

Lemma addProcess_duplicate cfg name args uid gid env cwd w :
  is_Some (_processes w !! name) →
  addProcess cfg name args uid gid env cwd w = (Raise KeyError, w).
Proof. intros H. by mrun. Qed.

Lemma addProcess_new cfg name args uid gid env cwd w :
  _processes w !! name = None →
  addProcess cfg name args uid gid env cwd w =
    (if running w then startProcess name else ret tt)
      (registered cfg name (mk_Process args uid gid env cwd) w).
Proof.
  intros H. unfold addProcess, bind, gets, modify, raise, registered. simpl.
  case_bool_decide as Hb; [destruct Hb; congruence|].
  by destruct (running w).
Qed.

(** ** Numbers *)

Lemma Qltb_lt (x y : Q) : Qltb x y = true ↔ (x < y)%Q.
Proof.
  unfold Qltb. rewrite negb_true_iff, <- not_true_iff_false, Qle_bool_iff.
  split; [apply Qnot_le_lt | apply Qlt_not_le].
Qed.

Lemma Qltb_ge (x y : Q) : Qltb x y = false ↔ (y <= x)%Q.
Proof. unfold Qltb. by rewrite negb_false_iff, Qle_bool_iff. Qed.

(** [py_min] is the smaller of its two arguments. *)
Lemma py_min_spec (x y : Q) :
  ((x <= y)%Q ∧ py_min x y = x) ∨ ((y < x)%Q ∧ py_min x y = y).
Proof.
  unfold py_min. destruct (Qltb y x) eqn:E.
  - right. by apply Qltb_lt in E.
  - left. by apply Qltb_ge in E.
Qed.

(** ** connectionLost *)

Lemma connectionLost_protos cfg name w :
  protos (connectionLost cfg name w).2 = protos w.
Proof. by mrun. Qed.

Lemma connectionLost_spec cfg name w proto started d :
  protocols w !! name = Some proto →
  timeStarted w !! name = Some started →
  delay w !! name = Some d →
  ∃ w', connectionLost cfg name w = (Ok tt, w')
    ∧ delay w' = <[name := (next_delay cfg (rightNow w - started) d).2]>
                   (delay w)
    ∧ protocols w' = delete name (protocols w)
    ∧ murder w' = delete name (murder w)
    ∧ running w' = running w ∧ _processes w' = _processes w
    ∧ timeStarted w' = timeStarted w ∧ rightNow w' = rightNow w
    ∧ protos w' = protos w ∧ logged w' = logged w
    ∧ if running w && bool_decide (is_Some (_processes w !! name))
      then restart w' = <[name := length (calls w)]> (restart w)
           ∧ calls w' !! length (calls w) = Some (mkDelayedCall
               (rightNow w + (next_delay cfg (rightNow w - started) d).1)
               (CbStartProcess name) false false)
           ∧ length (calls w') = S (length (calls w))
      else restart w' = restart w ∧ length (calls w') = length (calls w).
Proof.
  intros Hp Ht Hd. unfold next_delay.
  destruct (running w && bool_decide (is_Some (_processes w !! name))) eqn:Hr;
    mrun; eexists; (split; [done|]); simpl; repeat split; try done;
    rewrite ?length_app, ?length_alter; simpl; try lia;
    try (rewrite lookup_app_r by (rewrite ?length_alter; lia));
    rewrite ?length_alter, ?Nat.sub_diag; try done;
    by rewrite delete_id.
Qed.

(** ** The back-off stays within its bounds *)

Lemma next_delay_bounds cfg elapsed d :
  (0 < minRestartDelay cfg)%Q →
  (minRestartDelay cfg <= maxRestartDelay cfg)%Q →
  (minRestartDelay cfg <= d)%Q → (d <= maxRestartDelay cfg)%Q →
  (minRestartDelay cfg <= (next_delay cfg elapsed d).2)%Q
  ∧ ((next_delay cfg elapsed d).2 <= maxRestartDelay cfg)%Q.
Proof.
  intros H0 H1 H2 H3. unfold next_delay.
  destruct (Qltb elapsed (threshold cfg)); simpl.
  - destruct (py_min_spec (d * 2) (maxRestartDelay cfg)) as [[? ->]|[? ->]];
      split; lra.
  - split; lra.
Qed.

Lemma inv_delay_insert cfg name d w :
  (minRestartDelay cfg <= d)%Q → (d <= maxRestartDelay cfg)%Q →
  inv_delay cfg w → inv_delay cfg (set_delay <[name := d]> w).
Proof.
  intros H1 H2 H n x. simpl. rewrite lookup_insert.
  case_decide; [by intros [= <-] | apply H].
Qed.

(** A method that leaves the [delay] table alone keeps the bounds. *)
Lemma inv_delay_frame cfg {A} (m : M A) :
  (∀ w, delay (m w).2 = delay w) → preserves (inv_delay cfg) m.
Proof. intros Hm w H n d. rewrite Hm. apply H. Qed.

Lemma inv_delay_connectionLost cfg name :
  (0 < minRestartDelay cfg)%Q →
  (minRestartDelay cfg <= maxRestartDelay cfg)%Q →
  preserves (inv_delay cfg) (connectionLost cfg name).
Proof.
  intros H0 H1 w H.
  assert (Hb : ∀ d, delay w !! name = Some d →
    inv_delay cfg (set_delay <[name :=
      py_min (d * 2) (maxRestartDelay cfg)]> w)).
  { intros d Hd. destruct (H _ _ Hd) as [? ?].
    pose proof (next_delay_bounds cfg 0 d H0 H1) as Hn.
    unfold next_delay in Hn. 
    destruct (py_min_spec (d * 2) (maxRestartDelay cfg)) as [[? E]|[? E]];
      rewrite E; apply inv_delay_insert; try done; lra. }
  assert (Hm : inv_delay cfg (set_delay <[name := minRestartDelay cfg]> w)).
  { apply inv_delay_insert; [lra | lra | done]. }
  unfold inv_delay in *. mrun; wsimpl; eauto.
Qed.

(** The logger only touches the log and the protocol's own attributes. *)
Lemma preserves_outReceived P proto data :
  (∀ f w, P w → P (set_logged f w)) →
  (∀ g i w, (∀ p, lp_name (g p) = lp_name p) →
            (∀ p, lp_transport (g p) = lp_transport p) →
            (∀ p, is_Some (lp_output p) → is_Some (lp_output (g p))) →
            P w → P (set_protos (alter g i) w)) →
  preserves P (dataReceived proto data)
  ∧ preserves P (outReceived proto data).
Proof.
  intros Hlog Hpro.
  assert (Hd : ∀ data, preserves P (dataReceived proto data)).
  { intros data'. unfold dataReceived. pres.
    - intros w H. by apply Hpro.
    - unfold lineReceived. intros w H. by apply Hlog. }
  split; [done|]. unfold outReceived, outReceived_with. pres.
  intros w H. by apply Hpro.
Qed.

Lemma inv_delay_obligations cfg :
  (0 < minRestartDelay cfg)%Q →
  (minRestartDelay cfg <= maxRestartDelay cfg)%Q →
  step_obligations (inv_delay cfg) cfg.
Proof.
  intros H0 H1.
  assert (Ho : ∀ proto data,
    preserves (inv_delay cfg) (dataReceived proto data)
    ∧ preserves (inv_delay cfg) (outReceived proto data)).
  { intros. by apply preserves_outReceived. }
  split; try done.
  - intros name. apply inv_delay_frame. intros w. by mrun.
  - intros name. apply inv_delay_frame. intros w. by mrun.
  - intros proc. apply inv_delay_frame. intros w. by mrun.
  - intros proto data. apply Ho.
  - intros proto w H _. revert w H.
    change (preserves (inv_delay cfg)
              (set_status Ended proto ;;; processEnded cfg proto)).
    unfold processEnded. pres; try apply Ho.
    + apply inv_delay_frame. intros w. by mrun.
    + by apply inv_delay_connectionLost.
  - intros name w H. apply inv_delay_insert; [lra | lra | done].
Qed.

(** C9: with [0 < minRestartDelay <= maxRestartDelay], the back-off of every
    name lies in [[minRestartDelay, maxRestartDelay]]: at the start, after
    every event (registration, back-off update and reset on exit, and all
    the others), and so in every store the monitor can reach. *)
Theorem delay_within_bounds cfg :
  (0 < minRestartDelay cfg)%Q →
  (minRestartDelay cfg <= maxRestartDelay cfg)%Q →
  inv_delay cfg init
  ∧ (∀ ev w w', inv_delay cfg w → step cfg ev w = Some w' → inv_delay cfg w')
  ∧ (∀ w, reachable cfg w → inv_delay cfg w).
Proof.
  intros H0 H1. pose proof (inv_delay_obligations cfg H0 H1) as Hob.
  assert (Hi : inv_delay cfg init).
  { intros n d. simpl. by rewrite lookup_empty. }
  split; [done|]. split.
  - intros ev w w' H Hs. by eapply step_preserves.
  - intros w [evs Hr]. by eapply run_preserves.
Qed.

(** ** Kill timers are kept only for names with a protocol instance *)

Lemma inv_murder_frame {A} (m : M A) :
  (∀ w, murder (m w).2 = murder w ∧ protocols (m w).2 = protocols w) →
  preserves inv_murder m.
Proof. intros Hm w H n. destruct (Hm w) as [-> ->]. apply H. Qed.

Lemma inv_murder_startProcess name : preserves inv_murder (startProcess name).
Proof.
  intros w H n. unfold inv_murder in H. mrun; wsimpl; auto;
    rewrite lookup_insert; case_decide; simpl; auto.
Qed.

Lemma inv_murder_stopProcess cfg name :
  preserves inv_murder (stopProcess cfg name).
Proof.
  intros w H n. unfold inv_murder in H. mrun; wsimpl; auto.
  rewrite lookup_insert. case_decide; simplify_eq; auto.
Qed.

Lemma inv_murder_connectionLost cfg name :
  preserves inv_murder (connectionLost cfg name).
Proof.
  intros w H n. unfold inv_murder in H. mrun; wsimpl; auto;
    rewrite ?lookup_delete; repeat case_decide; simplify_eq; auto;
    try (by intros [? ?]); intros [? ?]; congruence.
Qed.

Lemma inv_murder_obligations cfg : step_obligations inv_murder cfg.
Proof.
  assert (Ho : ∀ proto data,
    preserves inv_murder (dataReceived proto data)
    ∧ preserves inv_murder (outReceived proto data)).
  { intros. by apply preserves_outReceived. }
  split; try done.
  - apply inv_murder_startProcess.
  - apply inv_murder_stopProcess.
  - intros proc. apply inv_murder_frame. intros w. by mrun.
  - intros proto data. apply Ho.
  - intros proto w H _. revert w H.
    change (preserves inv_murder
              (set_status Ended proto ;;; processEnded cfg proto)).
    unfold processEnded. pres; try apply Ho.
    + apply inv_murder_frame. intros w. by mrun.
    + apply inv_murder_connectionLost.
Qed.

(** ** At most one live process per name *)

Lemma live_iff w proto :
  live w proto ↔ ∃ p, protos w !! proto = Some p ∧ proto_live p = true.
Proof.
  unfold live, status_of, proto_live. split.
  - intros H. destruct (protos w !! proto) as [p|]; simpl in H;
      [|naive_solver].
    exists p. split; [done|].
    destruct (lp_transport p) as [t|]; simpl in H; [|naive_solver].
    destruct (t_status t); naive_solver.
  - intros (p & -> & H). simpl.
    destruct (lp_transport p) as [t|]; simpl; [|done].
    destruct (t_status t); auto. done.
Qed.

Lemma inv_live_alt w : inv_live w ↔ live_ok (protos w) (protocols w).
Proof.
  unfold inv_live, live_ok. split.
  - intros H i p Hp Hl. destruct (H i) as (q & Hq & Hn).
    + apply live_iff. eauto.
    + congruence.
  - intros H proto (p & Hp & Hl)%live_iff. eauto.
Qed.

Lemma live_ok_push ps m p :
  live_ok ps m → m !! lp_name p = None →
  live_ok (ps ++ [p]) (<[lp_name p := length ps]> m).
Proof.
  intros H Hn i q Hq Hl.
  destruct (decide (i < length ps)%nat) as [Hi|Hi].
  - rewrite lookup_app_l in Hq by done.
    rewrite lookup_insert_ne; [by apply H|].
    intros E. rewrite E, (H i q) in Hn; done.
  - pose proof (lookup_lt_Some _ _ _ Hq) as Hlt.
    rewrite length_app in Hlt. simpl in Hlt.
    assert (i = length ps) as -> by lia.
    rewrite lookup_snoc in Hq. injection Hq as <-.
    by rewrite lookup_insert_eq.
Qed.

Lemma live_ok_alter ps m g i :
  live_ok ps m →
  (∀ p, ps !! i = Some p →
     lp_name (g p) = lp_name p
     ∧ (proto_live (g p) = true → proto_live p = true)) →
  live_ok (alter g i ps) m.
Proof.
  intros H Hg j q Hq Hl. destruct (decide (i = j)) as [->|Hne].
  - rewrite list_lookup_alter_eq in Hq.
    destruct (ps !! j) as [p|] eqn:Hp; simpl in Hq; [|done].
    injection Hq as <-. destruct (Hg p eq_refl) as [-> Hl'].
    apply H; auto.
  - rewrite list_lookup_alter_ne in Hq by done. by apply H.
Qed.

Lemma live_ok_delete ps m name :
  live_ok ps m →
  (∀ i p, ps !! i = Some p → proto_live p = true → lp_name p ≠ name) →
  live_ok ps (delete name m).
Proof.
  intros H Hn i p Hp Hl. rewrite lookup_delete_ne; [by apply H|].
  intros E. by apply (Hn i p).
Qed.

Lemma inv_live_startProcess name : preserves inv_live (startProcess name).
Proof.
  intros w H. apply inv_live_alt in H. apply inv_live_alt.
  destruct (protocols w !! name) as [proto|] eqn:Hp.
  { by rewrite startProcess_live. }
  destruct (_processes w !! name) as [process|] eqn:Hr.
  2:{ by rewrite startProcess_unregistered. }
  destruct (args process) as [|executable rest] eqn:Ha.
  - rewrite (startProcess_no_args _ _ process) by done. simpl.
    by apply (live_ok_push _ _ (mkLoggingProtocol name true None None)).
  - rewrite (startProcess_spawns _ _ process executable rest) by done.
    simpl.
    by apply (live_ok_push _ _ (mkLoggingProtocol name true _ _)).
Qed.

Lemma inv_live_signal cfg name proc :
  preserves inv_live (stopProcess cfg name)
  ∧ preserves inv_live (_forceStopProcess proc).
Proof.
  split; intros w H; apply inv_live_alt in H; apply inv_live_alt;
    mrun; wsimpl; try done;
    (apply live_ok_alter; [done|]); intros q Hq; simplify_eq;
    unfold proto_live; simpl;
    repeat match goal with H : _ = _ |- _ => rewrite H end; done.
Qed.

Lemma inv_live_outReceived proto data :
  preserves inv_live (dataReceived proto data)
  ∧ preserves inv_live (outReceived proto data).
Proof.
  apply preserves_outReceived; [done|].
  intros g i w Hn Ht _ H. apply inv_live_alt in H. apply inv_live_alt. simpl.
  apply live_ok_alter; [done|]. intros p _. split; [done|].
  unfold proto_live. by rewrite Ht.
Qed.

Lemma live_except_dataReceived name proto data :
  preserves (live_except name) (dataReceived proto data).
Proof.
  apply preserves_outReceived; [done|].
  intros g i w Hn Ht _ [H1 H2]. split; simpl.
  - apply live_ok_alter; [done|]. intros p _. split; [done|].
    unfold proto_live. by rewrite Ht.
  - intros j q Hq Hl. destruct (decide (i = j)) as [->|Hne].
    + rewrite list_lookup_alter_eq in Hq.
      destruct (protos w !! j) as [p|] eqn:Hp; simpl in Hq; [|done].
      injection Hq as <-. rewrite Hn. apply (H2 j p Hp).
      revert Hl. unfold proto_live. by rewrite Ht.
    + rewrite list_lookup_alter_ne in Hq by done. by apply (H2 j q).
Qed.

Lemma inv_live_connectionLost cfg name w :
  live_except name w → inv_live (connectionLost cfg name w).2.
Proof.
  intros [H1 H2]. apply inv_live_alt.
  mrun; wsimpl; try done; by apply live_ok_delete.
Qed.

Lemma inv_live_exit proto w :
  inv_live w → status_of w proto = Some Alive →
  inv_live (set_status Exited proto w).2.
Proof.
  intros H (p & t & Hp & Ht & Hs)%status_of_Some.
  apply inv_live_alt in H. apply inv_live_alt. simpl.
  apply live_ok_alter; [done|]. intros q Hq. simplify_eq. split; [done|].
  intros _. unfold proto_live. by rewrite Ht, Hs.
Qed.

Lemma inv_live_ended cfg proto w :
  inv_live w → status_of w proto = Some Exited →
  inv_live ((set_status Ended proto ;;; processEnded cfg proto) w).2.
Proof.
  intros H (p & t & Hp & Ht & Hs)%status_of_Some.
  apply inv_live_alt in H.
  assert (Hreg : protocols w !! lp_name p = Some proto).
  { apply H; [done|]. unfold proto_live. by rewrite Ht, Hs. }
  set (g := λ p : LoggingProtocol, set_transport
         ((λ t, mkTransport Ended (t_signals t) (t_executable t)
                  (t_process t)) <$> lp_transport p) p).
  set (w1 := set_protos (alter g proto) w).
  assert (Hw1 : live_except (lp_name p) w1).
  { split; simpl.
    - apply live_ok_alter; [done|]. intros q Hq. simplify_eq.
      split; [done|]. unfold proto_live, g. simpl. by rewrite Ht.
    - intros i q Hq Hl E. destruct (decide (proto = i)) as [->|Hne].
      + rewrite list_lookup_alter_eq, Hp in Hq. simpl in Hq.
        injection Hq as <-. revert Hl. unfold proto_live, g. simpl.
        by rewrite Ht.
      + rewrite list_lookup_alter_ne in Hq by done.
        pose proof (H i q Hq Hl) as Hi. rewrite E, Hreg in Hi. congruence. }
  assert (Hget : protos w1 !! proto = Some (g p)).
  { simpl. by rewrite list_lookup_alter_eq, Hp. }
  change ((set_status Ended proto ;;; processEnded cfg proto) w)
    with (processEnded cfg proto w1).
  unfold processEnded, bind at 1, get_proto. rewrite Hget.
  change (lp_name (g p)) with (lp_name p).
  change (lp_empty (g p)) with (lp_empty p).
  destruct (lp_empty p).
  - by apply inv_live_connectionLost.
  - pose proof (live_except_dataReceived (lp_name p) proto [x0a] w1 Hw1)
      as Hd.
    unfold bind. destruct (dataReceived proto [x0a] w1) as [[[]|e] w2].
    + by apply inv_live_connectionLost.
    + apply inv_live_alt. apply Hd.
Qed.

Lemma inv_live_obligations cfg : step_obligations inv_live cfg.
Proof.
  split; try done.
  - apply inv_live_startProcess.
  - intros name. apply (inv_live_signal cfg name 0).
  - intros proc. apply (inv_live_signal cfg "" proc).
  - intros proto data. apply inv_live_outReceived.
  - apply inv_live_exit.
  - apply inv_live_ended.
Qed.

(** C2: [startProcess] does nothing when the monitor already keeps a
    protocol instance for the name; called twice in a row it spawns once;
    and in every store the monitor can reach, two processes whose end has
    not been reported never carry the same name. *)
Theorem one_live_process_per_name cfg name w :
  reachable cfg w →
  (is_Some (protocols w !! name) → startProcess name w = (Ok tt, w))
  ∧ (∀ w1, startProcess name w = (Ok tt, w1) →
       startProcess name w1 = (Ok tt, w1)
       ∧ (protos w1 = protos w ∨ ∃ p, protos w1 = protos w ++ [p]))
  ∧ (∀ process executable rest,
       protocols w !! name = None → _processes w !! name = Some process →
       args process = executable :: rest →
       ∃ w1, startProcess name w = (Ok tt, w1)
         ∧ startProcess name w1 = (Ok tt, w1)
         ∧ protos w1 = protos w ++ [mkLoggingProtocol name true
             (Some (mkLineLogger name []))
             (Some (mkTransport Alive [] executable process))])
  ∧ (∀ proto1 proto2 p1 p2,
       live w proto1 → live w proto2 →
       protos w !! proto1 = Some p1 → protos w !! proto2 = Some p2 →
       lp_name p1 = lp_name p2 → proto1 = proto2).
Proof.
  intros [evs Hr].
  assert (Hinv : inv_live w).
  { eapply run_preserves; [apply inv_live_obligations | done |].
    intros proto [H|H]; by vm_compute in H. }
  assert (Hsp : ∀ process executable rest,
    protocols w !! name = None → _processes w !! name = Some process →
    args process = executable :: rest →
    startProcess name (spawned name executable process w) =
      (Ok tt, spawned name executable process w)).
  { intros. apply startProcess_live. simpl. by rewrite lookup_insert_eq. }
  split; [apply startProcess_live|]. split; [|split].
  - intros w1 H1.
    destruct (protocols w !! name) as [proto|] eqn:Hp.
    { rewrite startProcess_live in H1 by done. injection H1 as <-.
      split; [by apply startProcess_live | by left]. }
    destruct (_processes w !! name) as [process|] eqn:Hreg.
    2:{ by rewrite startProcess_unregistered in H1. }
    destruct (args process) as [|executable rest] eqn:Ha.
    { by rewrite (startProcess_no_args _ _ process) in H1. }
    rewrite (startProcess_spawns _ _ process executable rest) in H1 by done.
    injection H1 as <-. split; [by eapply Hsp | right; by eexists].
  - intros process executable rest Hp Hreg Ha. eexists.
    split; [by eapply startProcess_spawns|]. split; [by eapply Hsp | done].
  - intros proto1 proto2 p1 p2 H1 H2 Hp1 Hp2 Hn.
    destruct (Hinv _ H1) as (q1 & Hq1 & E1).
    destruct (Hinv _ H2) as (q2 & Hq2 & E2).
    simplify_eq. rewrite Hn in E1. congruence.
Qed.

(** ** A delayed call that is no longer pending never changes *)

Lemma frozen_obligations cfg dc c :
  dc_active c = false → step_obligations (λ w, calls w !! dc = Some c) cfg.
Proof.
  intros Hc.
  assert (Ho : ∀ proto data,
    preserves (λ w, calls w !! dc = Some c) (outReceived proto data)).
  { intros. by apply preserves_outReceived. }
  assert (Halter : ∀ f i w, pending w i = true → calls w !! dc = Some c →
    alter f i (calls w) !! dc = Some c).
  { intros f i w Hi H. rewrite list_lookup_alter_ne; [done|].
    intros ->. unfold pending in Hi. rewrite H in Hi. simpl in Hi.
    congruence. }
  split; try done.
  - intros name w H. by mrun.
  - intros name w H. mrun; wsimpl; try done.
    rewrite lookup_app_l; [done | by eapply lookup_lt_Some].
  - intros proc w H. by mrun.
  - intros proto w H _. revert w H.
    change (preserves (λ w, calls w !! dc = Some c)
              (set_status Ended proto ;;; processEnded cfg proto)).
    assert (Hd : ∀ data, preserves (λ w, calls w !! dc = Some c)
                           (dataReceived proto data)).
    { intros. by apply preserves_outReceived. }
    unfold processEnded. pres; [by intros w H|].
    clear Ho Hd. intros w H. mrun; wsimpl; try done;
      rewrite ?lookup_app_l
        by (rewrite ?length_alter; by eapply lookup_lt_Some);
      try done; by apply Halter.
  - intros i w H Hi. simpl. by apply Halter.
  - intros i w H Hi. simpl. by apply Halter.
Qed.

(** Once a delayed call is cancelled or has fired, no sequence of events
    changes it. *)
Lemma not_pending_forever cfg evs w w' dc c :
  calls w !! dc = Some c → dc_active c = false →
  run cfg evs w = Some w' → calls w' !! dc = Some c.
Proof.
  intros H Hc Hr.
  by eapply (run_preserves cfg (λ w, calls w !! dc = Some c));
    [apply frozen_obligations | |].
Qed.

(** ** A spawned protocol has its line logger *)

Lemma inv_output_obligations cfg : step_obligations inv_output cfg.
Proof.
  assert (Halter : ∀ g i w,
    (∀ p, is_Some (lp_transport (g p)) → is_Some (lp_output p)
          → is_Some (lp_output (g p))) →
    (∀ p, protos w !! i = Some p → is_Some (lp_transport (g p)) →
          is_Some (lp_transport p)) →
    inv_output w → inv_output (set_protos (alter g i) w)).
  { intros g i w Hg Ht H j q Hq Hl. simpl in Hq.
    destruct (decide (i = j)) as [->|Hne].
    - rewrite list_lookup_alter_eq in Hq.
      destruct (protos w !! j) as [p|] eqn:Hp; simpl in Hq; [|done].
      injection Hq as <-. apply Hg; [done|]. apply (H j p Hp). by apply Ht.
    - rewrite list_lookup_alter_ne in Hq by done. by apply (H j q). }
  assert (Ho : ∀ proto data,
    preserves inv_output (dataReceived proto data)
    ∧ preserves inv_output (outReceived proto data)).
  { intros. apply preserves_outReceived; [done|].
    intros g i w Hn Ht Hout H. apply Halter; [auto| |done].
    intros p _. by rewrite Ht. }
  split; try done.
  - intros name w H.
    destruct (protocols w !! name) as [proto|] eqn:Hp.
    { by rewrite startProcess_live. }
    destruct (_processes w !! name) as [process|] eqn:Hr.
    2:{ by rewrite startProcess_unregistered. }
    assert (Hpush : ∀ p, (is_Some (lp_transport p) → is_Some (lp_output p)) →
      ∀ i q, (protos w ++ [p]) !! i = Some q →
        is_Some (lp_transport q) → is_Some (lp_output q)).
    { intros p Hp' i q Hq. apply lookup_app_Some in Hq as [Hq|[_ Hq]].
      - by apply (H i q).
      - apply list_lookup_singleton_Some in Hq as [_ <-]. done. }
    destruct (args process) as [|executable rest] eqn:Ha.
    + rewrite (startProcess_no_args _ _ process) by done.
      intros i q. simpl. apply Hpush. simpl. by intros [? ?].
    + rewrite (startProcess_spawns _ _ process executable rest) by done.
      intros i q. simpl. apply Hpush. simpl. eauto.
  - intros name w H. mrun; wsimpl; try done; apply (Halter _ _ _); try done;
      intros q Hq; simplify_eq; eauto.
  - intros proc w H. mrun; wsimpl; try done; apply (Halter _ _ _); try done;
      intros q Hq; simplify_eq; eauto.
  - intros proto data. apply Ho.
  - intros proto w H _. simpl. apply Halter; [done| |done].
    intros p _. simpl. by intros [? [? [? ?]]%fmap_Some].
  - intros proto w H _. revert w H.
    change (preserves inv_output
              (set_status Ended proto ;;; processEnded cfg proto)).
    unfold processEnded. pres; try apply Ho.
    + intros w H. simpl. apply Halter; [done| |done].
      intros p _. simpl. by intros [? [? [? ?]]%fmap_Some].
    + intros w H i p. rewrite connectionLost_protos. apply H.
Qed.

(** ** The exit of a process, as the monitor sees it *)

(** Reporting the end of a process runs [connectionLost] for its name; the
    flush of the logger before it leaves the monitor's tables and the
    reactor's calls as they were. *)
Lemma ended_connectionLost cfg proto w p :
  inv_output w → protos w !! proto = Some p → is_Some (lp_transport p) →
  ∃ w2, (set_status Ended proto ;;; processEnded cfg proto) w
          = connectionLost cfg (lp_name p) w2
    ∧ murder w2 = murder w ∧ calls w2 = calls w ∧ running w2 = running w
    ∧ _processes w2 = _processes w ∧ protocols w2 = protocols w
    ∧ delay w2 = delay w ∧ timeStarted w2 = timeStarted w
    ∧ restart w2 = restart w ∧ rightNow w2 = rightNow w.
Proof.
  intros Hinv Hp Ht. destruct (Hinv proto p Hp Ht) as [out Hout].
  set (g := λ p : LoggingProtocol, set_transport
         ((λ t, mkTransport Ended (t_signals t) (t_executable t)
                  (t_process t)) <$> lp_transport p) p).
  set (w1 := set_protos (alter g proto) w).
  assert (Hget : protos w1 !! proto = Some (g p)).
  { simpl. by rewrite list_lookup_alter_eq, Hp. }
  change ((set_status Ended proto ;;; processEnded cfg proto) w)
    with (processEnded cfg proto w1).
  unfold processEnded, bind at 1, get_proto. rewrite Hget.
  change (lp_name (g p)) with (lp_name p).
  change (lp_empty (g p)) with (lp_empty p).
  destruct (lp_empty p).
  - by exists w1.
  - unfold bind, dataReceived, get_proto, bind. rewrite Hget.
    change (lp_output (g p)) with (lp_output p). rewrite Hout. simpl.
    by eexists.
Qed.

(** What [connectionLost] does to the kill timer and to the reactor's
    calls, on every path through it. *)
Lemma connectionLost_calls cfg name w :
  murder (connectionLost cfg name w).2 = delete name (murder w)
  ∧ ∃ tail, calls (connectionLost cfg name w).2 =
      match murder w !! name with
      | Some dc => if pending w dc then alter mark_cancelled dc (calls w)
                   else calls w
      | None => calls w
      end ++ tail.
Proof.
  mrun; wsimpl; (split; [first [done | by rewrite delete_id]|]);
    first [ by eexists | by (exists []; rewrite app_nil_r) ].
Qed.

Lemma connectionLost_murder cfg name w dc c :
  murder w !! name = Some dc → calls w !! dc = Some c →
  murder (connectionLost cfg name w).2 !! name = None
  ∧ pending (connectionLost cfg name w).2 dc = false
  ∧ calls (connectionLost cfg name w).2 !! dc =
      Some (if dc_active c then mark_cancelled c else c).
Proof.
  intros Hm Hdc.
  destruct (connectionLost_calls cfg name w) as (-> & tail & Hc).
  split; [by rewrite lookup_delete_eq|].
  unfold pending in *. rewrite Hc, Hm, Hdc. clear Hc. simpl.
  pose proof (lookup_lt_Some _ _ _ Hdc) as Hlt.
  destruct (dc_active c) eqn:Ha.
  - rewrite lookup_app_l by (by rewrite length_alter).
    rewrite list_lookup_alter_eq, Hdc. simpl. split; [|done].
    unfold dc_active. simpl. by destruct (dc_called c).
  - rewrite lookup_app_l, Hdc by done. done.
Qed.

(** X15: the kill timer the monitor keeps under a name.  In every store
    the monitor can reach, [murder] has an entry only for a name that has a
    protocol instance; [stopProcess] on a running process arms the timer
    and keeps it; and when the end of a process is reported, the timer kept
    under its name is dropped and no longer pending: if it had not fired by
    then, it is cancelled and never fires, whatever happens next. *)
Theorem kill_timer_cancelled_on_exit cfg w :
  reachable cfg w →
  (∀ name, is_Some (murder w !! name) → is_Some (protocols w !! name))
  ∧ (∀ name proc, is_Some (_processes w !! name) →
       protocols w !! name = Some proc → status_of w proc = Some Alive →
       ∃ w1 dc, stopProcess cfg name w = (Ok tt, w1)
         ∧ murder w1 !! name = Some dc ∧ pending w1 dc = true)
  ∧ (∀ proto p dc c w',
       protos w !! proto = Some p →
       murder w !! lp_name p = Some dc → calls w !! dc = Some c →
       step cfg (EvEnded proto) w = Some w' →
       murder w' !! lp_name p = None
       ∧ pending w' dc = false
       ∧ (dc_active c = true →
          ∀ evs w'', run cfg evs w' = Some w'' →
            calls w'' !! dc = Some (mark_cancelled c)
            ∧ dc_called (mark_cancelled c) = false)).
Proof.
  intros [evs Hr].
  assert (Hm : inv_murder w).
  { eapply run_preserves; [apply inv_murder_obligations | done |].
    intros n. simpl. rewrite lookup_empty. by intros [? ?]. }
  assert (Ho : inv_output w).
  { eapply run_preserves; [apply inv_output_obligations | done |].
    intros i p. simpl. by rewrite lookup_nil. }
  split; [done|]. split.
  - intros name proc Hreg Hp Hs.
    destruct (stopProcess_alive cfg name w proc Hreg Hp Hs)
      as (w1 & E & _ & _ & Hmu & Hc & _).
    exists w1, (length (calls w)). split; [done|].
    rewrite Hmu, lookup_insert_eq. split; [done|].
    unfold pending. by rewrite Hc, lookup_snoc.
  - intros proto p dc c w' Hp Hmu Hc Hs. unfold step in Hs.
    destruct (enabled w (EvEnded proto)) eqn:Hen; [|done].
    injection Hs as <-. simpl in Hen. apply bool_decide_eq_true in Hen.
    apply status_of_Some in Hen as (p' & t & Hp' & Ht & _).
    simplify_eq. simpl.
    destruct (ended_connectionLost cfg proto w p Ho Hp)
      as (w2 & -> & Hm2 & Hc2 & _); [by eexists|].
    rewrite <- Hm2 in Hmu. rewrite <- Hc2 in Hc.
    destruct (connectionLost_murder cfg _ w2 dc c Hmu Hc) as (? & ? & Hl).
    split; [done|]. split; [done|].
    intros Ha evs' w'' Hr'. rewrite Ha in Hl. split.
    + eapply not_pending_forever; [done| |done].
      unfold dc_active. simpl. done.
    + unfold dc_active in Ha. simpl.
      by destruct (dc_cancelled c), (dc_called c).
Qed.

(** ** stopService *)

Lemma pending_alter_cancelled dc dc' (cs : list DelayedCall) :
  from_option dc_active false (alter mark_cancelled dc cs !! dc') =
    if decide (dc = dc') then false
    else from_option dc_active false (cs !! dc').
Proof.
  case_decide as E.
  - subst. rewrite list_lookup_alter_eq. destruct (cs !! dc') as [c|]; [|done].
    simpl. unfold dc_active. simpl. done.
  - by rewrite list_lookup_alter_ne.
Qed.

Lemma cancel_if_active_spec dc w :
  ∃ w1, cancel_if_active dc w = (Ok tt, w1)
    ∧ calls_only w w1 ∧ pending w1 dc = false.
Proof.
  unfold cancel_if_active, active, cancel, bind, gets, modify, ret. simpl.
  destruct (pending w dc) eqn:E; eexists; (split; [done|]);
    unfold calls_only, pending; simpl; rewrite ?length_alter;
    repeat split; try done.
  - intros dc' H. rewrite pending_alter_cancelled. by case_decide.
  - rewrite pending_alter_cancelled. by case_decide.
Qed.

Lemma calls_only_trans w1 w2 w3 :
  calls_only w1 w2 → calls_only w2 w3 → calls_only w1 w3.
Proof.
  unfold calls_only. intros H1 H2. destruct_and!.
  repeat split; try congruence. auto.
Qed.

(** The first loop of [stopService]. *)
Lemma cancel_restarts_spec (l : list (string * nat)) w :
  ∃ w1, for_each l (λ '(name, delayedCall), cancel_if_active delayedCall) w
          = (Ok tt, w1)
    ∧ calls_only w w1
    ∧ ∀ name dc, (name, dc) ∈ l → pending w1 dc = false.
Proof.
  revert w. induction l as [|[n dc] l IH]; intros w; simpl.
  - exists w. split; [done|]. split; [by unfold calls_only|].
    intros ? ? H. by apply elem_of_nil in H.
  - destruct (cancel_if_active_spec dc w) as (w1 & E1 & F1 & P1).
    destruct (IH w1) as (w2 & E2 & F2 & P2).
    exists w2. unfold bind. rewrite E1, E2. split; [done|].
    split; [by eapply calls_only_trans|].
    intros name dc' [[= -> ->]|H]%elem_of_cons; [|by eapply P2].
    by apply F2.
Qed.

(** ** The order in which the restart timers are cancelled does not show *)

Lemma alter_comm {A} (f g : A → A) (i j : nat) (l : list A) :
  i ≠ j → alter f i (alter g j l) = alter g j (alter f i l).
Proof.
  intros Hne. apply list_eq. intros k.
  destruct (decide (i = k)) as [Hi|Hi]; destruct (decide (j = k)) as [Hj|Hj].
  - congruence.
  - subst k. rewrite list_lookup_alter_eq.
    rewrite (list_lookup_alter_ne g) by done.
    rewrite (list_lookup_alter_ne g) by done.
    by rewrite list_lookup_alter_eq.
  - subst k. rewrite (list_lookup_alter_ne f) by done.
    rewrite !list_lookup_alter_eq.
    by rewrite (list_lookup_alter_ne f) by done.
  - by rewrite !list_lookup_alter_ne by done.
Qed.

Lemma cancel_if_active_comm a b w :
  (cancel_if_active a ;;; cancel_if_active b) w
  = (cancel_if_active b ;;; cancel_if_active a) w.
Proof.
  unfold cancel_if_active, active, cancel, bind, gets, modify, ret, pending.
  simpl.
  destruct (from_option dc_active false (calls w !! a)) eqn:Ea;
    destruct (from_option dc_active false (calls w !! b)) eqn:Eb; simpl;
    rewrite ?pending_alter_cancelled; repeat case_decide; subst;
    rewrite ?Ea, ?Eb; simpl; try done; try congruence.
  unfold set_calls. simpl. by rewrite alter_comm.
Qed.

(** The first loop of [stopService] walks the dict [self.restart]: whatever
    the order in which its items are visited, the outcome is the same. *)
Lemma cancel_restarts_perm (l l' : list (string * nat)) :
  l ≡ₚ l' →
  ∀ w, for_each l (λ '(name, delayedCall), cancel_if_active delayedCall) w
       = for_each l' (λ '(name, delayedCall), cancel_if_active delayedCall)
           w.
Proof.
  induction 1 as [|[n dc] l l' _ IH|[n1 a] [n2 b] l|l1 l2 l3 _ IH1 _ IH2];
    intros w; simpl.
  - done.
  - unfold bind. destruct (cancel_if_active dc w) as [[[]|e] w1]; [|done].
    apply IH.
  - pose proof (cancel_if_active_comm b a w) as Hc. unfold bind in *.
    destruct (cancel_if_active_spec a w) as (wa & Ea & _).
    destruct (cancel_if_active_spec b w) as (wb & Eb & _).
    rewrite Ea, Eb in *.
    destruct (cancel_if_active_spec a wb) as (wba & Eba & _).
    destruct (cancel_if_active_spec b wa) as (wab & Eab & _).
    rewrite Eba, Eab in *. by injection Hc as ->.
  - by rewrite IH1.
Qed.

(** ** The order of the registered names *)

Lemma filter_all {A} (P : A → Prop) `{!∀ x, Decision (P x)} (l : list A) :
  (∀ x, x ∈ l → P x) → filter P l = l.
Proof.
  induction l as [|x l IH]; intros Hl; [done|].
  rewrite filter_cons_True by (apply Hl; by left).
  rewrite IH; [done|]. intros y Hy. apply Hl. by right.
Qed.

Lemma filter_none {A} (P : A → Prop) `{!∀ x, Decision (P x)} (l : list A) :
  (∀ x, x ∈ l → ¬ P x) → filter P l = [].
Proof.
  induction l as [|x l IH]; intros Hl; [done|].
  rewrite filter_cons_False by (apply Hl; by left).
  apply IH. intros y Hy. apply Hl. by right.
Qed.

(** Where [_order] lists the keys, a loop over the dict visits them in
    that order. *)
Lemma dict_keys_order w : inv_order w → dict_keys w = _order w.
Proof.
  intros [_ H]. unfold dict_keys.
  rewrite filter_all by (intros n; apply H).
  rewrite filter_none; [by rewrite app_nil_r|].
  intros n ([n' x] & -> & Hin)%list_elem_of_fmap Hn. apply Hn, H.
  apply elem_of_map_to_list in Hin. by eexists.
Qed.

Lemma inv_order_frame w w' :
  _processes w' = _processes w → _order w' = _order w →
  inv_order w → inv_order w'.
Proof. unfold inv_order. by intros -> ->. Qed.

Lemma inv_order_setitem name process w :
  _processes w !! name = None →
  inv_order w → inv_order (setitem_processes name process w).
Proof.
  intros Hn [Hd H]. unfold inv_order. simpl.
  assert (Hnot : name ∉ _order w).
  { intros Hin. apply H in Hin as [x Hx]. congruence. }
  rewrite bool_decide_eq_false_2 by done. split.
  - apply NoDup_app. split; [done|]. split; [|apply NoDup_singleton].
    intros n Hin ->%list_elem_of_singleton. done.
  - intros n. rewrite elem_of_app, list_elem_of_singleton, H.
    rewrite lookup_insert. case_decide; subst.
    + split; [by eexists | by right].
    + split; [by intros [?|?] | by left].
Qed.

Lemma inv_order_delitem name w :
  inv_order w → inv_order (delitem_processes name w).
Proof.
  intros [Hd H]. unfold inv_order. simpl. split.
  - by apply NoDup_filter.
  - intros n. rewrite list_elem_of_filter, H, lookup_delete.
    case_decide; subst.
    + split; [by intros [? _] | by intros [? ?]].
    + split; [by intros [_ ?] | done].
Qed.

Lemma inv_order_step cfg ev w w' :
  step cfg ev w = Some w' → inv_order w → inv_order w'.
Proof.
  assert (Hf : ∀ {A} (m : M A),
    (∀ w, _processes (m w).2 = _processes w ∧ _order (m w).2 = _order w) →
    preserves inv_order m).
  { intros A m Hm w0. destruct (Hm w0). by apply inv_order_frame. }
  assert (Hstart : ∀ name, preserves inv_order (startProcess name)).
  { intros name. apply Hf. intros w0. by mrun. }
  assert (Hstop : ∀ name, preserves inv_order (stopProcess cfg name)).
  { intros name. apply Hf. intros w0. by mrun. }
  assert (Hforce : ∀ proc, preserves inv_order (_forceStopProcess proc)).
  { intros proc. apply Hf. intros w0. by mrun. }
  assert (Ho : ∀ proto data,
    preserves inv_order (dataReceived proto data)
    ∧ preserves inv_order (outReceived proto data)).
  { intros. by apply preserves_outReceived. }
  intros Hs HP. unfold step in Hs.
  destruct (enabled w ev) eqn:Hen; [|done]. injection Hs as <-.
  clear Hen. revert w HP.
  change (preserves inv_order (deliver cfg ev)).
  destruct ev as [name args' uid' gid' env' cwd' | name | | | name | name |
                  | amount | dc | proto data | proto | proto]; simpl.
  - intros w HP. destruct (_processes w !! name) as [x|] eqn:Hr.
    { by rewrite addProcess_duplicate. }
    rewrite addProcess_new by done.
    assert (Hreg : inv_order (registered cfg name
                     (mk_Process args' uid' gid' env' cwd') w)).
    { by apply (inv_order_setitem name _ w). }
    destruct (running w); [by apply Hstart | done].
  - unfold removeProcess. pres.
    match goal with H : inv_order _ |- _ => revert H end.
    apply inv_order_delitem.
  - unfold startService, Service_startService. pres. done.
  - unfold stopService, Service_stopService, cancel_if_active, active,
      cancel. pres; done.
  - apply Hstart.
  - apply Hstop.
  - unfold restartAll. pres.
  - by intros w.
  - unfold fire, run_callback. pres; done.
  - apply Ho.
  - by intros w.
  - unfold processEnded. pres; try apply Ho; [by intros w|].
    apply Hf. intros w. by mrun.
Qed.

(** In every store the monitor can reach, a loop over [self._processes]
    visits the registered names, each once, in the order in which they were
    added. *)
Lemma dict_keys_reachable cfg w :
  reachable cfg w →
  dict_keys w = _order w ∧ NoDup (dict_keys w)
  ∧ ∀ n, n ∈ dict_keys w ↔ is_Some (_processes w !! n).
Proof.
  intros [evs Hr].
  assert (H : inv_order w).
  { revert Hr.
    assert (Hi : inv_order init).
    { split; [apply NoDup_nil_2|]. intros n. simpl. rewrite lookup_empty.
      split; [by intros ?%elem_of_nil | by intros [? ?]]. }
    revert Hi. generalize init. induction evs as [|ev evs IH]; simpl.
    - by intros w0 H [= <-].
    - intros w0 H Hr. destruct (step cfg ev w0) as [w1|] eqn:Hs; [|done].
      simpl in Hr. eapply IH; [|done]. by eapply inv_order_step. }
  rewrite (dict_keys_order w H). destruct H. done.
Qed.

Lemma stop_frame_refl w : stop_frame w w.
Proof. by unfold stop_frame. Qed.

Lemma stop_frame_trans w1 w2 w3 :
  stop_frame w1 w2 → stop_frame w2 w3 → stop_frame w1 w3.
Proof.
  unfold stop_frame. intros H1 H2. destruct_and!.
  repeat split; try congruence; auto.
Qed.

Lemma signals_of_alter w proc (t t' : ProcessTransport) p :
  protos w !! proc = Some p → lp_transport p = Some t →
  ∀ proto, signals_of (set_protos (alter (set_transport (Some t')) proc) w)
             proto
           = if decide (proc = proto) then t_signals t'
             else signals_of w proto.
Proof.
  intros Hp Ht proto. unfold signals_of. simpl. case_decide as E.
  - subst. by rewrite list_lookup_alter_eq, Hp.
  - by rewrite list_lookup_alter_ne.
Qed.

Lemma status_of_alter w proc (t t' : ProcessTransport) p :
  protos w !! proc = Some p → lp_transport p = Some t →
  t_status t' = t_status t →
  ∀ proto, status_of (set_protos (alter (set_transport (Some t')) proc) w)
             proto = status_of w proto.
Proof.
  intros Hp Ht Hs proto. unfold status_of. simpl.
  destruct (decide (proc = proto)) as [<-|E].
  - rewrite list_lookup_alter_eq, Hp. simpl. by rewrite Ht, Hs.
  - by rewrite list_lookup_alter_ne.
Qed.

(** What [stopProcess] leaves alone, on every path through it. *)
Lemma stopProcess_frame cfg name w :
  stop_frame w (stopProcess cfg name w).2
  ∧ ∀ name', name' ≠ name →
      murder (stopProcess cfg name w).2 !! name' = murder w !! name'.
Proof.
  unfold stop_frame. mrun; wsimpl; try done.
  match goal with
  | Hp : protos ?w !! ?n = Some ?a, Ht : lp_transport ?a = Some ?t,
    Hs : t_status ?t = Alive |- _ =>
      pose proof (signals_of_alter w n t
        (mkTransport Alive (t_signals t ++ [TERM]) (t_executable t)
           (t_process t)) a Hp Ht) as Hsig;
      pose proof (status_of_alter w n t
        (mkTransport Alive (t_signals t ++ [TERM]) (t_executable t)
           (t_process t)) a Hp Ht (eq_sym Hs)) as Hst;
      assert (Hold : signals_of w n = t_signals t)
        by (unfold signals_of; rewrite Hp; simpl; by rewrite Ht)
  end.
  unfold set_protos in *. simpl in *.
  repeat split; try done.
  - intros proto sig Hin. unfold signals_of in *. simpl. rewrite Hsig.
    case_decide; [|done]. subst. simpl in *.
    rewrite elem_of_app. left. by rewrite <- Hold.
  - intros dc c Hc. by apply lookup_app_l_Some.
  - intros name' Hne. by rewrite lookup_insert_ne.
Qed.

Lemma stopProcess_ok cfg name w :
  is_Some (_processes w !! name) → connected w →
  (stopProcess cfg name w).1 = Ok tt.
Proof.
  intros Hreg Hc. destruct (protocols w !! name) as [proc|] eqn:Hp.
  2:{ by rewrite stopProcess_not_live. }
  destruct (Hc name proc Hp) as [s Hs]. destruct s.
  - by destruct (stopProcess_alive cfg name w proc Hreg Hp Hs) as (? & -> & _).
  - rewrite (stopProcess_exited cfg name w proc); auto.
  - rewrite (stopProcess_exited cfg name w proc); auto.
Qed.

Lemma connected_frame w w' : stop_frame w w' → connected w → connected w'.
Proof.
  intros (_ & _ & Hp & _ & _ & Hs & _) H name proto. rewrite Hp, Hs.
  apply H.
Qed.

(** The second loop of [stopService], and [restartAll]. *)
Lemma stop_all_ok cfg (l : list string) w :
  (∀ name, name ∈ l → is_Some (_processes w !! name)) → connected w →
  ∃ w', for_each l (stopProcess cfg) w = (Ok tt, w') ∧ stop_frame w w'.
Proof.
  revert w. induction l as [|n l IH]; intros w Hreg Hc; simpl.
  - exists w. split; [done | apply stop_frame_refl].
  - pose proof (stopProcess_ok cfg n w) as Hok.
    destruct (stopProcess_frame cfg n w) as [Hf _].
    unfold bind. destruct (stopProcess cfg n w) as [r w1]. simpl in *.
    rewrite Hok; [|apply Hreg; by left|done].
    destruct (IH w1) as (w' & -> & Hf').
    + intros name Hin. destruct Hf as (_ & -> & _). apply Hreg. by right.
    + by eapply connected_frame.
    + exists w'. split; [done | by eapply stop_frame_trans].
Qed.

Lemma stopProcess_term cfg name proc w :
  is_Some (_processes w !! name) → protocols w !! name = Some proc →
  status_of w proc = Some Alive →
  term_sent cfg (rightNow w) name proc (stopProcess cfg name w).2.
Proof.
  intros Hreg Hp Hs.
  destruct (stopProcess_alive cfg name w proc Hreg Hp Hs)
    as (w' & -> & Hsig & _ & Hm & Hc & _).
  unfold term_sent, timer. simpl. rewrite Hsig, Hm, Hc, lookup_insert_eq.
  simpl. rewrite lookup_snoc. split; [|done].
  rewrite elem_of_app. right. by left.
Qed.

Lemma stop_all_term cfg t name proc (l : list string) w :
  (∀ n, n ∈ l → is_Some (_processes w !! n)) → connected w →
  is_Some (_processes w !! name) → protocols w !! name = Some proc →
  status_of w proc = Some Alive → rightNow w = t →
  name ∈ l ∨ term_sent cfg t name proc w →
  term_sent cfg t name proc (for_each l (stopProcess cfg) w).2.
Proof.
  revert w. induction l as [|n l IH]; intros w Hall Hc Hreg Hp Hs Ht Hin.
  - destruct Hin as [Hin|H]; [by apply elem_of_nil in Hin | done].
  - simpl. unfold bind.
    pose proof (stopProcess_ok cfg n w) as Hok.
    pose proof (stopProcess_term cfg n proc w) as Hterm.
    destruct (stopProcess_frame cfg n w) as [Hf Hmu].
    destruct (stopProcess cfg n w) as [r w1]. simpl in *.
    rewrite Hok; [|apply Hall; by left|done].
    pose proof Hf as (_ & Hf2 & Hf3 & _ & Hf5 & Hf6 & Hf7 & Hf8).
    apply IH.
    + intros n' Hn'. rewrite Hf2. apply Hall. by right.
    + by eapply connected_frame.
    + by rewrite Hf2.
    + by rewrite Hf3.
    + by rewrite Hf6.
    + congruence.
    + destruct (decide (name = n)) as [->|Hne].
      { right. rewrite <- Ht. by apply Hterm. }
      destruct Hin as [[?|Hin]%elem_of_cons|[Hsig Htm]]; [done|by left|].
      right. split; [by apply Hf7|].
      unfold timer in *. rewrite Hmu by done.
      destruct (murder w !! name) as [dc|]; simpl in *; [|done].
      by apply Hf8.
Qed.

Lemma inv_restart_frame {A} (m : M A) :
  (∀ w, restart (m w).2 = restart w
        ∧ (length (calls w) ≤ length (calls (m w).2))%nat) →
  preserves inv_restart m.
Proof.
  intros Hm w H n dc. destruct (Hm w) as [-> Hl]. intros Hr.
  specialize (H n dc Hr). lia.
Qed.

Lemma inv_restart_obligations cfg : step_obligations inv_restart cfg.
Proof.
  assert (Ho : ∀ proto data,
    preserves inv_restart (dataReceived proto data)
    ∧ preserves inv_restart (outReceived proto data)).
  { intros. by apply preserves_outReceived. }
  split; try done.
  - intros name. apply inv_restart_frame. intros w. by mrun.
  - intros name. apply inv_restart_frame. intros w.
    mrun; wsimpl; rewrite ?length_app; split; try done; lia.
  - intros proc. apply inv_restart_frame. intros w. by mrun.
  - intros proto data. apply Ho.
  - intros proto w H _. revert w H.
    change (preserves inv_restart
              (set_status Ended proto ;;; processEnded cfg proto)).
    unfold processEnded. pres; try apply Ho; [by intros w H|].
    clear Ho. intros w H n dc. unfold inv_restart in H.
    mrun; wsimpl; rewrite ?length_app, ?length_alter; simpl;
      rewrite ?lookup_insert; try case_decide; try intros [= <-];
      try intros Hr; try lia;
      match goal with
      | Hr : restart _ !! _ = Some _ |- _ => apply H in Hr; lia
      end.
  - intros dc w H Hp n i Hr. simpl. rewrite length_alter. by eapply H.
  - intros dc w H Hp n i Hr. simpl. rewrite length_alter. by eapply H.
Qed.


(** ** The claims about single methods *)

(** C7: [stopProcess] raises [KeyError] and changes nothing when the name is
    not registered; does nothing when the name has no protocol instance;
    swallows the failure and arms no timer when the process has already
    exited; and otherwise sends [TERM] and arms, under the name, a kill timer
    due [killTime] seconds later whose function sends [KILL]. *)
Theorem stopProcess_cases cfg name w :
  (_processes w !! name = None →
     stopProcess cfg name w = (Raise KeyError, w))
  ∧ (is_Some (_processes w !! name) → protocols w !! name = None →
     stopProcess cfg name w = (Ok tt, w))
  ∧ (∀ proc, is_Some (_processes w !! name) →
       protocols w !! name = Some proc →
       (status_of w proc = Some Exited →
          stopProcess cfg name w = (Ok tt, w))
       ∧ (status_of w proc = Some Alive →
          ∃ w', stopProcess cfg name w = (Ok tt, w')
            ∧ signals_of w' proc = signals_of w proc ++ [TERM]
            ∧ timer murder w' name = Some (mkDelayedCall
                (rightNow w + killTime cfg) (CbForceStopProcess proc)
                false false)
            ∧ (∀ w2, status_of w2 proc = Some Alive →
                 ∃ w3, run_callback (CbForceStopProcess proc) w2
                         = (Ok tt, w3)
                   ∧ signals_of w3 proc = signals_of w2 proc ++ [KILL]))).
Proof.
  split; [apply stopProcess_unknown|].
  split; [apply stopProcess_not_live|].
  intros proc Hreg Hp. split.
  - intros Hs. apply (stopProcess_exited cfg name w proc); auto.
  - intros Hs.
    destruct (stopProcess_alive cfg name w proc Hreg Hp Hs)
      as (w' & E & Hsig & _ & Hm & Hc & _).
    exists w'. split; [done|]. split; [done|]. split.
    + unfold timer. rewrite Hm, Hc, lookup_insert_eq. simpl.
      by rewrite lookup_snoc.
    + intros w2 Hs2. simpl. by apply forceStopProcess_alive.
Qed.



(** C1, as the code has it: when [connectionLost] runs for a registered
    name, a process that ran for less than [threshold] has its back-off
    doubled, up to [maxRestartDelay] and no further; a process that ran for
    at least [threshold] has its back-off set to [minRestartDelay].  While
    the service is running the restart is scheduled: after the back-off as
    it was before the doubling in the first case, at once in the second.
    While the service is not running no restart is scheduled.  With bounds
    1 and 60 and threshold 1, three exits after 0.2 s are followed by
    restarts after 1, 2 and 4 s and leave the back-off at 8; an exit after
    2 s is then followed by a restart at once, the back-off being 1 again;
    and a crash loop that goes on has restarts after 8, 16, 32 s and then
    after 60 s every time. *)
Theorem connectionLost_backoff cfg name w proto started d :
  is_Some (_processes w !! name) →
  protocols w !! name = Some proto →
  timeStarted w !! name = Some started →
  delay w !! name = Some d →
  (∃ w' d', connectionLost cfg name w = (Ok tt, w')
     ∧ rightNow w' = rightNow w
     ∧ delay w' !! name = Some d'
     ∧ ((rightNow w - started < threshold cfg)%Q →
          ((d * 2 <= maxRestartDelay cfg)%Q → d' = (d * 2)%Q)
          ∧ ((maxRestartDelay cfg < d * 2)%Q → d' = maxRestartDelay cfg)
          ∧ (running w = true → restart_in w' name d d'))
     ∧ ((threshold cfg <= rightNow w - started)%Q →
          d' = minRestartDelay cfg
          ∧ (running w = true → restart_in w' name 0 d'))
     ∧ (running w = false →
          restart w' = restart w
          ∧ length (calls w') = length (calls w)))
  ∧ backoff_scenario ∧ capped_scenario.
Proof.
  intros Hreg Hp Ht Hd. split.
  - destruct (connectionLost_spec cfg name w proto started d Hp Ht Hd)
      as (w' & E & Hdel & _ & _ & _ & _ & _ & Hnow & _ & _ & Hsched).
    rewrite (bool_decide_eq_true_2 _ Hreg), andb_true_r in Hsched.
    exists w', (next_delay cfg (rightNow w - started) d).2.
    split; [done|]. split; [done|].
    split; [by rewrite Hdel, lookup_insert_eq|].
    assert (Hin : running w = true → ∀ d0,
      (next_delay cfg (rightNow w - started) d).1 = d0 →
      restart_in w' name d0 (next_delay cfg (rightNow w - started) d).2).
    { intros Hrun d0 <-. rewrite Hrun in Hsched.
      destruct Hsched as (Hre & Hcall & _).
      unfold restart_in, timer.
      rewrite Hnow, Hre, Hdel, !lookup_insert_eq. simpl. by rewrite Hcall. }
    unfold next_delay in *. repeat and_split.
    + intros Hlt. apply Qltb_lt in Hlt. rewrite Hlt in *. simpl in *.
      split; [|split; [|by auto]].
      * intros Hle.
        destruct (py_min_spec (d * 2) (maxRestartDelay cfg))
          as [[_ ->]|[Hgt _]]; [done | lra].
      * intros Hgt.
        destruct (py_min_spec (d * 2) (maxRestartDelay cfg))
          as [[Hle _]|[_ ->]]; [lra | done].
    + intros Hge. apply Qltb_ge in Hge. rewrite Hge in *. simpl in *.
      split; [done | by auto].
    + intros Hrun. by rewrite Hrun in Hsched.
  - split.
    + unfold backoff_scenario, restart_in.
      split; [eexists; compute_eq|]. repeat and_split; compute_eq.
    + unfold capped_scenario, restart_in. repeat and_split; compute_eq.
Qed.

(** C1, as the spec has it, fails when the service is not running: [foo]
    is registered and exits 0.2 s after its start, and [connectionLost]
    doubles its back-off but schedules no restart: the restart table stays
    empty and the only delayed call there is, the kill timer, is cancelled. *)
Lemma connectionLost_stopped_schedules_nothing :
  reachable scenario_cfg w_stopping
  ∧ is_Some (_processes w_stopping !! "foo")
  ∧ running w_stopping = false
  ∧ timeStarted w_stopping !! "foo" = Some 0%Q
  ∧ rightNow w_stopping = 1 # 5
  ∧ delay w_stopping !! "foo" = Some 1%Q
  ∧ (connectionLost scenario_cfg "foo" w_stopping).1 = Ok tt
  ∧ delay (connectionLost scenario_cfg "foo" w_stopping).2 !! "foo"
      = Some 2%Q
  ∧ restart (connectionLost scenario_cfg "foo" w_stopping).2 = ∅
  ∧ timer restart (connectionLost scenario_cfg "foo" w_stopping).2 "foo"
      = None
  ∧ calls (connectionLost scenario_cfg "foo" w_stopping).2
      = [mkDelayedCall 5 (CbForceStopProcess 0) true false].
Proof.
  split; [apply reachable_after; eexists; compute_eq|].
  split; [eexists; compute_eq|].
  repeat and_split; compute_eq.
Qed.

(** C10: [startProcess] for a name that is neither registered nor has a
    protocol instance raises [KeyError] and changes nothing; a restart timer
    that fires after its name was removed does just that. *)
Theorem startProcess_unregistered_raises :
  (∀ name w, _processes w !! name = None → protocols w !! name = None →
     startProcess name w = (Raise KeyError, w))
  ∧ reachable defaults w_removed
  ∧ _processes w_removed !! "foo" = None
  ∧ timer restart w_removed "foo"
      = Some (mkDelayedCall ((1 # 5) + 1) (CbStartProcess "foo") false false)
  ∧ ∃ w, step defaults (EvAdvance 1) w_removed = Some w
      ∧ enabled w (EvFire 0) = true
      ∧ (fire 0 w).1 = Raise KeyError
      ∧ protos (fire 0 w).2 = protos w.
Proof.
  split; [intros; by apply startProcess_unregistered|].
  split; [apply reachable_after; eexists; vm_compute; reflexivity|].
  split; [vm_compute; reflexivity|]. split; [vm_compute; reflexivity|].
  exists (set_rightNow (rightNow w_removed + 1)%Q w_removed).
  repeat and_split; vm_compute; reflexivity.
Qed.

(** ** removeProcess *)

Lemma connectionLost_unregistered cfg name w :
  _processes w !! name = None →
  restart (connectionLost cfg name w).2 = restart w
  ∧ length (calls (connectionLost cfg name w).2) = length (calls w).
Proof.
  intros Hn. mrun; wsimpl; rewrite ?length_alter; try (by split);
    exfalso;
    first [ match goal with H : is_Some _ |- _ => destruct H end; congruence
          | match goal with H : _ && false = true |- _ =>
              by rewrite andb_false_r in H end ].
Qed.

(** ** A removed name is not respawned *)

Section Unregistered.
Context (cfg : Config) (name : string) (w0 : World).

#[local] Abbreviation gone := (unregistered_since name w0).

Lemma gone_mono w w' :
  (∀ i p', protos w' !! i = Some p' →
     ∃ p, protos w !! i = Some p ∧ lp_name p' = lp_name p
       ∧ (is_Some (lp_transport p') → is_Some (lp_transport p))) →
  (_processes w !! name = None → _processes w' !! name = None) →
  gone w → gone w'.
Proof.
  intros Hpr Hr [Hn Hs]. split; [auto|].
  intros proto p' Hp' Hname.
  destruct (Hpr _ _ Hp') as (p & Hp & Hnm & Ht).
  destruct (Hs proto p Hp) as (p0 & Hp0 & Ht0); [congruence|].
  exists p0. split; [done|]. auto.
Qed.

Lemma gone_alter g j w :
  (∀ p, protos w !! j = Some p →
        lp_name (g p) = lp_name p
        ∧ (is_Some (lp_transport (g p)) → is_Some (lp_transport p))) →
  gone w → gone (set_protos (alter g j) w).
Proof.
  intros Hg. apply gone_mono; [|done]. simpl. intros i p' Hp'.
  destruct (decide (j = i)) as [->|Hne].
  - rewrite list_lookup_alter_eq in Hp'.
    destruct (protos w !! i) as [p|] eqn:Hp; simplify_eq/=.
    exists p. split; [done|]. by apply Hg.
  - rewrite list_lookup_alter_ne in Hp' by done. by exists p'.
Qed.

Lemma gone_frame w w' :
  protos w' = protos w → _processes w' = _processes w → gone w → gone w'.
Proof. intros Hp Hr. apply gone_mono; rewrite ?Hp, ?Hr; eauto. Qed.

Lemma gone_startProcess n : preserves gone (startProcess n).
Proof.
  intros w Hg.
  destruct (protocols w !! n) as [proto|] eqn:Hp.
  { by rewrite startProcess_live. }
  destruct (_processes w !! n) as [process|] eqn:Hr.
  2:{ by rewrite startProcess_unregistered. }
  assert (Hne : n ≠ name) by (destruct Hg; congruence).
  assert (Hpush : ∀ p w', lp_name p = n → protos w' = protos w ++ [p] →
    _processes w' = _processes w → gone w').
  { intros p w' Hn Hpr Hps. destruct Hg as [Hg1 Hg2].
    split; [by rewrite Hps|]. intros proto q. rewrite Hpr.
    intros [Hq|[_ Hq]]%lookup_app_Some Hname.
    - by apply (Hg2 proto q).
    - apply list_lookup_singleton_Some in Hq as [_ <-]. congruence. }
  destruct (args process) as [|executable rest] eqn:Hargs.
  - rewrite (startProcess_no_args _ _ process) by done.
    by eapply (Hpush (mkLoggingProtocol n true None None)).
  - rewrite (startProcess_spawns _ _ process executable rest) by done.
    by eapply (Hpush (mkLoggingProtocol n true _ _)).
Qed.

(** Sending a signal rewrites the process handle of a protocol that has
    one. *)
Lemma gone_signalProcess proc sig : preserves gone (signalProcess proc sig).
Proof.
  intros w H. unfold signalProcess, bind, get_proto, update_proto, modify.
  destruct (protos w !! proc) as [p|] eqn:Hp; [|done].
  destruct (lp_transport p) as [t|] eqn:Ht; [|done].
  destruct (t_status t); try done. simpl.
  apply gone_alter; [|done]. intros q Hq. simplify_eq.
  split; [done|]. by rewrite Ht.
Qed.

Lemma gone_stopProcess n : preserves gone (stopProcess cfg n).
Proof.
  assert (Hsig := gone_signalProcess).
  unfold stopProcess, callLater, seconds.
  pres; first [done
              | match goal with
                | H : unregistered_since _ _ ?w |- _ =>
                    by apply (gone_frame w)
                end].
Qed.

Lemma gone_forceStopProcess proc : preserves gone (_forceStopProcess proc).
Proof.
  assert (Hsig := gone_signalProcess).
  unfold _forceStopProcess. pres.
Qed.

Lemma gone_connectionLost n : preserves gone (connectionLost cfg n).
Proof.
  intros w. apply gone_frame; [apply connectionLost_protos | by mrun].
Qed.

Lemma gone_step ev w w' :
  adds name ev = false → step cfg ev w = Some w' → gone w → gone w'.
Proof.
  assert (Ho : ∀ proto data,
    preserves gone (dataReceived proto data)
    ∧ preserves gone (outReceived proto data)).
  { intros. apply preserves_outReceived; [done|].
    intros g i w1 Hn Ht _. apply gone_alter. intros p.
    by rewrite Hn, Ht. }
  assert (Hstart := gone_startProcess).
  assert (Hstop := gone_stopProcess).
  assert (Hforce := gone_forceStopProcess).
  assert (Hstatus : ∀ s proto, preserves gone (set_status s proto)).
  { intros s proto w1. apply gone_alter. intros p. split; [done|].
    simpl. by intros [t [? [? _]]%fmap_Some]. }
  assert (Hcalls : ∀ f w1, gone w1 → gone (set_calls f w1)) by done.
  intros Ha Hs HP. unfold step in Hs.
  destruct (enabled w ev) eqn:Hen; [|done]. injection Hs as <-.
  clear Hen. revert w HP.
  change (preserves gone (deliver cfg ev)).
  destruct ev as [n args' uid' gid' env' cwd' | n | | | n | n |
                  | amount | dc | proto data | proto | proto]; simpl.
  - simpl in Ha. apply bool_decide_eq_false in Ha.
    intros w HP. destruct (_processes w !! n) as [x|] eqn:Hr.
    { by rewrite addProcess_duplicate. }
    rewrite addProcess_new by done.
    assert (Hreg : gone (registered cfg n
                     (mk_Process args' uid' gid' env' cwd') w)).
    { revert HP. apply gone_mono; [eauto|]. simpl.
      by rewrite lookup_insert_ne. }
    destruct (running w); [by apply Hstart | done].
  - unfold removeProcess. pres.
    match goal with H : unregistered_since _ _ _ |- _ => revert H end.
    apply gone_mono; [eauto|]. simpl. intros Hn.
    apply lookup_delete_None. by right.
  - unfold startService, Service_startService. pres. done.
  - unfold stopService, Service_stopService, cancel_if_active, active,
      cancel. pres; done.
  - apply Hstart.
  - apply Hstop.
  - unfold restartAll. pres.
  - by intros w.
  - unfold fire, run_callback. pres; done.
  - apply Ho.
  - apply Hstatus.
  - unfold processEnded. pres; try apply Ho.
    apply gone_connectionLost.
Qed.

Lemma gone_run evs w w' :
  forallb (λ ev, negb (adds name ev)) evs = true →
  run cfg evs w = Some w' → gone w → gone w'.
Proof.
  revert w. induction evs as [|ev evs IH]; simpl; intros w Ha Hr Hg.
  - by injection Hr as <-.
  - apply andb_true_iff in Ha as [Ha1 Ha2].
    apply negb_true_iff in Ha1.
    destruct (step cfg ev w) as [w1|] eqn:Hs; simpl in Hr; [|done].
    eapply IH; [done | done |]. by eapply gone_step.
Qed.

End Unregistered.

Lemma no_spawn_refl name w : no_spawn name w w.
Proof. intros proto p Hp _. by exists p. Qed.

(** Once [name] is unregistered, no sequence of events that does not add
    it again spawns a process for it. *)
Lemma unregistered_never_spawned cfg name evs w w' :
  _processes w !! name = None →
  forallb (λ ev, negb (adds name ev)) evs = true →
  run cfg evs w = Some w' →
  _processes w' !! name = None ∧ no_spawn name w w'.
Proof.
  intros Hn Ha Hr.
  apply (gone_run cfg name w evs w w' Ha Hr).
  split; [done | apply no_spawn_refl].
Qed.

Lemma removeProcess_ok cfg name w w1 :
  removeProcess cfg name w = (Ok tt, w1) → _processes w1 !! name = None.
Proof.
  unfold removeProcess, bind, getitem, modify.
  destruct (stopProcess cfg name w) as [[[]|e] w0]; [|done].
  destruct (_processes w0 !! name); [|done].
  intros [= <-]. simpl. by rewrite lookup_delete_eq.
Qed.

Lemma stopProcess_no_process cfg name w proc :
  is_Some (_processes w !! name) → protocols w !! name = Some proc →
  status_of w proc = None →
  stopProcess cfg name w = (Raise AttributeError, w).
Proof.
  intros [x H] H2 H3. unfold status_of in H3.
  destruct (protos w !! proc) as [p|] eqn:Hp; simpl in H3.
  - destruct (lp_transport p) as [t|] eqn:Ht; simpl in H3; [done|].
    mrun; intuition congruence.
  - mrun; intuition congruence.
Qed.



(** ** The logger's end-of-line flag *)

(** With [bytes] data, [outReceived] always leaves [empty] false. *)
Lemma outReceived_empty_false proto data w p :
  (outReceived proto data w).1 = Ok tt →
  protos (outReceived proto data w).2 !! proto = Some p →
  lp_empty p = false.
Proof.
  unfold outReceived, outReceived_with, bind.
  destruct (dataReceived proto data w) as [[[]|e] w1]; simpl; [|done].
  unfold bytes_getitem_last. destruct (last data); simpl; [|done].
  intros _. rewrite list_lookup_alter_eq.
  destruct (protos w1 !! proto); simpl; [|done]. by intros [= <-].
Qed.

(** With the strings of Python 2, where [data[-1]] is a string of length
    one, the flag tells whether the last byte was a newline. *)
Lemma outReceived_py2_tracks_newline proto data w p :
  (outReceived_with str_getitem_last proto data w).1 = Ok tt →
  protos (outReceived_with str_getitem_last proto data w).2 !! proto
    = Some p →
  lp_empty p = true ↔ last data = Some x0a.
Proof.
  unfold outReceived_with, bind.
  destruct (dataReceived proto data w) as [[[]|e] w1]; simpl; [|done].
  unfold str_getitem_last. destruct (last data) as [c|]; simpl; [|done].
  intros _. rewrite list_lookup_alter_eq.
  destruct (protos w1 !! proto); simpl; [|done]. intros [= <-]. simpl.
  unfold bytes_eqb. rewrite bool_decide_eq_true. simpl. split.
  - intros [= H]. apply (f_equal Byte.of_N) in H.
    rewrite Byte.of_to_N in H. vm_compute in H. congruence.
  - by intros [= ->].
Qed.

(** C4, at an input where the code and the claim part: output that ends
    with a newline is followed, at the end of the process, by one more
    delimiter, so that an empty line is logged after the last line; output
    that ends in a partial line is flushed once. *)
Theorem processEnded_logs_empty_line :
  logged (after defaults [add_foo; EvStartService;
            EvOutput 0 (bytes_lit "hello" ++ [x0a]); EvExit 0; EvEnded 0])
    = [mkLogMsg "foo" (bytes_lit "hello"); mkLogMsg "foo" []]
  ∧ logged (after defaults [add_foo; EvStartService;
              EvOutput 0 (bytes_lit "hello"); EvExit 0; EvEnded 0])
    = [mkLogMsg "foo" (bytes_lit "hello")].
Proof. split; vm_compute; reflexivity. Qed.

(** ** The theorems at concrete stores *)

Lemma connected_w_running : connected w_running.
Proof.
  intros name proto H.
  assert (E : protocols w_running = {["foo" := 0%nat]}) by compute_eq.
  rewrite E in H. apply lookup_singleton_Some in H as [<- <-].
  eexists. compute_eq.
Qed.

Lemma connected_w_restart_pending : connected w_restart_pending.
Proof.
  intros name proto H.
  assert (E : protocols w_restart_pending = ∅) by compute_eq.
  rewrite E in H. destruct (lookup_empty_Some _ _ H).
Qed.

Lemma connectionLost_backoff_witness :
  is_Some (_processes w_backoff_32 !! "foo")
  ∧ protocols w_backoff_32 !! "foo" = Some 5%nat
  ∧ (∃ started, timeStarted w_backoff_32 !! "foo" = Some started
       ∧ (started == 32)%Q
       ∧ (rightNow w_backoff_32 - started == 1 # 5)%Q)
  ∧ delay w_backoff_32 !! "foo" = Some 32%Q
  ∧ running w_backoff_32 = true
  ∧ ∃ w', connectionLost scenario_cfg "foo" w_backoff_32 = (Ok tt, w')
      ∧ restart_in w' "foo" 32 60.
Proof.
  assert (H1 : is_Some (_processes w_backoff_32 !! "foo"))
    by (eexists; compute_eq).
  assert (H2 : protocols w_backoff_32 !! "foo" = Some 5%nat) by compute_eq.
  assert (H3 : timeStarted w_backoff_32 !! "foo" = Some (100000 # 3125))
    by compute_eq.
  assert (H4 : delay w_backoff_32 !! "foo" = Some 32%Q) by compute_eq.
  assert (H5 : running w_backoff_32 = true) by compute_eq.
  destruct (connectionLost_backoff scenario_cfg "foo" w_backoff_32 5
              (100000 # 3125) 32 H1 H2 H3 H4)
    as [(w' & d' & E & _ & _ & Hfast & _) _].
  destruct Hfast as (_ & Hcap & Hin); [by vm_compute|].
  rewrite (Hcap eq_refl) in Hin.
  repeat and_split; try assumption.
  - eexists. split; [exact H3|]. split; by vm_compute.
  - exists w'. split; [assumption|]. by apply Hin.
Defined.

Lemma one_live_process_per_name_witness :
  reachable defaults w_running
  ∧ startProcess "foo" w_running = (Ok tt, w_running).
Proof.
  assert (H : reachable defaults w_running)
    by (apply reachable_after; eexists; compute_eq).
  split; [assumption|].
  apply (one_live_process_per_name defaults "foo" w_running H).
  eexists; compute_eq.
Defined.


Lemma kill_timer_cancelled_on_exit_witness :
  reachable defaults w_stopped
  ∧ murder w_stopped !! "foo" = Some 0%nat
  ∧ pending w_stopped 0 = true
  ∧ ∃ w', step defaults (EvEnded 0) w_stopped = Some w'
      ∧ murder w' !! "foo" = None ∧ pending w' 0 = false.
Proof.
  assert (H : reachable defaults w_stopped)
    by (apply reachable_after; eexists; compute_eq).
  split; [assumption|]. split; [compute_eq|]. split; [compute_eq|].
  destruct (kill_timer_cancelled_on_exit defaults w_stopped H)
    as (_ & _ & Hend).
  eexists. split; [compute_eq|].
  edestruct (Hend 0%nat) as (Hm & Hp & _);
    [compute_eq | compute_eq | compute_eq | compute_eq |].
  split; [exact Hm | exact Hp].
Defined.


Lemma stopProcess_cases_witness :
  _processes w_running !! "bar" = None
  ∧ stopProcess defaults "bar" w_running = (Raise KeyError, w_running)
  ∧ is_Some (_processes w_running !! "foo")
  ∧ protocols w_running !! "foo" = Some 0%nat
  ∧ status_of w_running 0 = Some Alive
  ∧ ∃ w', stopProcess defaults "foo" w_running = (Ok tt, w')
      ∧ signals_of w' 0 = signals_of w_running 0 ++ [TERM].
Proof.
  assert (H0 : _processes w_running !! "bar" = None) by compute_eq.
  assert (H1 : is_Some (_processes w_running !! "foo"))
    by (eexists; compute_eq).
  assert (H2 : protocols w_running !! "foo" = Some 0%nat) by compute_eq.
  assert (H3 : status_of w_running 0 = Some Alive) by compute_eq.
  destruct (stopProcess_cases defaults "bar" w_running) as (Hbar & _).
  destruct (stopProcess_cases defaults "foo" w_running) as (_ & _ & Hfoo).
  destruct (Hfoo 0%nat H1 H2) as (_ & Halive).
  destruct (Halive H3) as (w' & E & Hsig & _).
  repeat and_split; try assumption; [by apply Hbar|].
  exists w'. by split.
Defined.


Lemma delay_within_bounds_witness :
  (0 < minRestartDelay defaults)%Q
  ∧ (minRestartDelay defaults <= maxRestartDelay defaults)%Q
  ∧ reachable defaults w_restart_pending
  ∧ delay w_restart_pending !! "foo" = Some 2%Q
  ∧ inv_delay defaults w_restart_pending.
Proof.
  assert (H0 : (0 < minRestartDelay defaults)%Q) by reflexivity.
  assert (H1 : (minRestartDelay defaults <= maxRestartDelay defaults)%Q)
    by (apply Qle_bool_iff; reflexivity).
  assert (H : reachable defaults w_restart_pending)
    by (apply reachable_after; eexists; compute_eq).
  destruct (delay_within_bounds defaults H0 H1) as (_ & _ & Hreach).
  repeat and_split; try assumption; [compute_eq | by apply Hreach].
Defined.

Lemma startProcess_unregistered_raises_witness :
  _processes w_removed !! "foo" = None
  ∧ protocols w_removed !! "foo" = None
  ∧ startProcess "foo" w_removed = (Raise KeyError, w_removed).
Proof.
  assert (H0 : _processes w_removed !! "foo" = None) by compute_eq.
  assert (H1 : protocols w_removed !! "foo" = None) by compute_eq.
  destruct startProcess_unregistered_raises as (H & _).
  repeat and_split; try assumption. by apply H.
Defined.

(** ** Timers whose handle was overwritten *)

(** C5, at an input where the code and the claim part: [stopProcess] called
    twice on a running process overwrites [murder[name]] with the second
    kill timer and leaves the first one pending.  The process exits two
    seconds after the first request, well before [killTime]; the report of
    its end cancels the second timer only.  Five seconds after the first
    request the first kill timer is still pending, though the process it
    is for has ended and [murder] is empty, and it fires. *)
Theorem superseded_kill_timer_fires :
  let w := after defaults stopped_twice in
  is_Some (run defaults stopped_twice init)
  ∧ status_of w 0 = Some Ended
  ∧ protocols w !! "foo" = Some 1%nat
  ∧ murder w !! "foo" = None
  ∧ calls w !! 0%nat
      = Some (mkDelayedCall (0 + 5) (CbForceStopProcess 0) false false)
  ∧ pending w 1 = false
  ∧ enabled w (EvFire 0) = true
  ∧ (fire 0 w).1 = Ok tt
  ∧ dc_called <$> calls (fire 0 w).2 !! 0%nat = Some true
  ∧ signals_of (fire 0 w).2 1 = [].
Proof.
  cbv zeta. split; [eexists; compute_eq|].
  repeat and_split; compute_eq.
Qed.

(** C6, at an input where the code and the claim part: a process started by
    hand while its restart is pending, and exiting again, has its entry in
    [restart] overwritten while the first restart timer is still pending.
    [stopService] cancels the timer it keeps and leaves the first one: a
    second after the service was stopped it fires and spawns the process,
    though the service is not running. *)
Theorem superseded_restart_timer_survives_stop :
  let w := after defaults started_by_hand in
  is_Some (run defaults started_by_hand init)
  ∧ running w = false
  ∧ restart w !! "foo" = Some 1%nat
  ∧ pending w 1 = false
  ∧ calls w !! 0%nat
      = Some (mkDelayedCall ((1 # 5) + 1) (CbStartProcess "foo") false false)
  ∧ protocols w !! "foo" = None
  ∧ enabled w (EvFire 0) = true
  ∧ (fire 0 w).1 = Ok tt
  ∧ running (fire 0 w).2 = false
  ∧ protocols (fire 0 w).2 !! "foo" = Some 2%nat
  ∧ status_of (fire 0 w).2 2 = Some Alive.
Proof.
  cbv zeta. split; [eexists; compute_eq|].
  repeat and_split; compute_eq.
Qed.


(** * More of the monitor *)

(** ** _forceStopProcess *)

Lemma forceStopProcess_alive_eq w proc p t :
  protos w !! proc = Some p → lp_transport p = Some t →
  t_status t = Alive →
  _forceStopProcess proc w =
    (Ok tt, set_protos (alter (set_transport (Some
       (mkTransport Alive (t_signals t ++ [KILL]) (t_executable t)
          (t_process t)))) proc) w).
Proof. intros Hp Ht Hs. by mrun. Qed.

(** X1: [_forceStopProcess] on a process handle never raises: a running
    process gets [KILL]; for a process that is gone the failure is
    swallowed and nothing changes.  It touches no table and no timer. *)
Theorem forceStopProcess_total w proc :
  is_Some (status_of w proc) →
  ∃ w', _forceStopProcess proc w = (Ok tt, w')
    ∧ stop_frame w w' ∧ murder w' = murder w ∧ calls w' = calls w
    ∧ delay w' = delay w ∧ timeStarted w' = timeStarted w
    ∧ signals_of w' proc
        = signals_of w proc
          ++ (if decide (status_of w proc = Some Alive) then [KILL] else [])
    ∧ (status_of w proc ≠ Some Alive → w' = w).
Proof.
  intros [s Hs]. destruct s.
  - apply status_of_Some in Hs as Hpt. destruct Hpt as (p & t & Hp & Ht & Hst).
    pose proof (signals_of_alter w proc t
      (mkTransport Alive (t_signals t ++ [KILL]) (t_executable t)
         (t_process t)) p Hp Ht) as Hsig.
    pose proof (status_of_alter w proc t
      (mkTransport Alive (t_signals t ++ [KILL]) (t_executable t)
         (t_process t)) p Hp Ht (eq_sym Hst)) as Hstat.
    assert (Hold : signals_of w proc = t_signals t).
    { unfold signals_of. rewrite Hp. simpl. by rewrite Ht. }
    rewrite (forceStopProcess_alive_eq w proc p t Hp Ht Hst).
    eexists. split; [done|]. unfold stop_frame.
    rewrite decide_True by done.
    repeat and_split; try done; [|by rewrite Hsig, decide_True, Hold].
    intros proto sig Hin. rewrite Hsig. case_decide; [|done]. subst.
    simpl. rewrite elem_of_app. left. by rewrite <- Hold.

  - exists w. rewrite forceStopProcess_gone by auto.
    rewrite decide_False by congruence. rewrite app_nil_r.
    repeat and_split; first [done | apply stop_frame_refl].
  - exists w. rewrite forceStopProcess_gone by auto.
    rewrite decide_False by congruence. rewrite app_nil_r.
    repeat and_split; first [done | apply stop_frame_refl].
Qed.

Lemma forceStopProcess_total_witness :
  is_Some (status_of w_running 0)
  ∧ ∃ w', _forceStopProcess 0 w_running = (Ok tt, w')
      ∧ signals_of w' 0 = [KILL].
Proof.
  assert (H : is_Some (status_of w_running 0)) by (eexists; compute_eq).
  split; [assumption|].
  destruct (forceStopProcess_total w_running 0 H)
    as (w' & E & _ & _ & _ & _ & _ & Hsig & _).
  exists w'. split; [assumption|]. rewrite Hsig. compute_eq.
Defined.

(** ** startProcess without arguments *)

(** X2: when the registered process has an empty argument list,
    [startProcess] raises [IndexError] only after it has put a new protocol
    instance under the name: no process is spawned, the name keeps a
    protocol that has none, and every later [startProcess] for the name
    returns without doing anything. *)
Theorem startProcess_empty_args name w process :
  protocols w !! name = None → _processes w !! name = Some process →
  args process = [] →
  ∃ w', startProcess name w = (Raise IndexError, w')
    ∧ protocols w' !! name = Some (length (protos w))
    ∧ status_of w' (length (protos w)) = None
    ∧ (∀ proto, status_of w' proto = status_of w proto)
    ∧ startProcess name w' = (Ok tt, w').
Proof.
  intros Hp Hr Ha. eexists.
  split; [by apply (startProcess_no_args name w process)|].
  simpl. split; [by rewrite lookup_insert_eq|].
  assert (Hst : ∀ proto,
    status_of (set_protos (λ l, l ++ [mkLoggingProtocol name true None None])
                 w) proto = status_of w proto).
  { intros proto. unfold status_of. simpl.
    destruct (decide (proto < length (protos w))%nat) as [Hlt|Hge].
    - by rewrite lookup_app_l.
    - destruct (decide (proto = length (protos w))) as [->|Hne].
      + rewrite lookup_snoc. simpl.
        by rewrite (proj2 (lookup_ge_None _ _)) by lia.
      + rewrite !(proj2 (lookup_ge_None _ _)); [done|lia|].
        rewrite length_app. simpl. lia. }
  split.
  { unfold status_of. simpl. by rewrite lookup_snoc. }
  split; [apply Hst|].
  apply startProcess_live. simpl. by rewrite lookup_insert_eq.
Qed.

Lemma startProcess_empty_args_witness :
  protocols w_no_args !! "bar" = None
  ∧ (∃ process, _processes w_no_args !! "bar" = Some process
                ∧ args process = [])
  ∧ (startProcess "bar" w_no_args).1 = Raise IndexError
  ∧ protocols (startProcess "bar" w_no_args).2 !! "bar" = Some 1%nat.
Proof.
  assert (H0 : protocols w_no_args !! "bar" = None) by compute_eq.
  assert (H1 : _processes w_no_args !! "bar"
               = Some (mk_Process [] None None ∅ None)) by compute_eq.
  destruct (startProcess_empty_args "bar" w_no_args _ H0 H1 eq_refl)
    as (w' & E & Hp & _).
  split; [assumption|]. split; [by eexists|].
  rewrite E. split; [reflexivity|]. simpl. rewrite Hp. compute_eq.
Defined.

(** ** connectionLost *)

(** X3: while the service is not running, [connectionLost] arms no timer:
    the restart table and the number of delayed calls stay as they were
    and no call becomes pending.  The back-off of the name is updated all
    the same, and its protocol is dropped. *)
Theorem connectionLost_not_running cfg name w proto started d :
  running w = false →
  protocols w !! name = Some proto →
  timeStarted w !! name = Some started →
  delay w !! name = Some d →
  ∃ w', connectionLost cfg name w = (Ok tt, w')
    ∧ restart w' = restart w
    ∧ length (calls w') = length (calls w)
    ∧ (∀ dc, pending w' dc = true → pending w dc = true)
    ∧ protocols w' !! name = None
    ∧ delay w' !! name
        = Some (if Qltb (rightNow w - started) (threshold cfg)
                then py_min (d * 2) (maxRestartDelay cfg)
                else minRestartDelay cfg).
Proof.
  intros Hrun Hp Ht Hd.
  destruct (connectionLost_spec cfg name w proto started d Hp Ht Hd)
    as (w' & E & Hdel & Hpr & _ & _ & _ & _ & _ & _ & _ & Hsched).
  rewrite Hrun in Hsched. simpl in Hsched. destruct Hsched as [Hre Hlen].
  exists w'. split; [done|]. split; [done|]. split; [done|].
  split; [|split].
  - destruct (connectionLost_calls cfg name w) as (_ & tail & Hc).
    rewrite E in Hc. simpl in Hc.
    assert (tail = []) as ->.
    { apply (f_equal length) in Hc. rewrite length_app, Hlen in Hc.
      destruct (murder w !! name) as [dc0|]; [destruct (pending w dc0)|];
        rewrite ?length_alter in Hc; destruct tail; simpl in Hc; done || lia. }
    rewrite app_nil_r in Hc. intros dc. unfold pending at 1. rewrite Hc.
    destruct (murder w !! name) as [dc0|]; [|done].
    destruct (pending w dc0); [|done].
    rewrite pending_alter_cancelled. by case_decide.
  - by rewrite Hpr, lookup_delete_eq.
  - rewrite Hdel, lookup_insert_eq. unfold next_delay.
    by destruct (Qltb _ _).
Qed.

Lemma connectionLost_not_running_witness :
  running (set_running false w_exited) = false
  ∧ protocols (set_running false w_exited) !! "foo" = Some 0%nat
  ∧ timeStarted (set_running false w_exited) !! "foo" = Some 0%Q
  ∧ delay (set_running false w_exited) !! "foo" = Some 1%Q
  ∧ ∃ w', connectionLost scenario_cfg "foo" (set_running false w_exited)
            = (Ok tt, w')
      ∧ restart w' = restart w_exited ∧ delay w' !! "foo" = Some 2%Q.
Proof.
  assert (H2 : protocols (set_running false w_exited) !! "foo"
               = Some 0%nat) by compute_eq.
  assert (H3 : timeStarted (set_running false w_exited) !! "foo"
               = Some 0%Q) by compute_eq.
  assert (H4 : delay (set_running false w_exited) !! "foo" = Some 1%Q)
    by compute_eq.
  destruct (connectionLost_not_running scenario_cfg "foo"
              (set_running false w_exited) 0 0 1 eq_refl H2 H3 H4)
    as (w' & E & Hre & _ & _ & _ & Hd).
  repeat and_split; try assumption; [reflexivity|].
  exists w'. split; [assumption|]. split; [assumption|].
  rewrite Hd. compute_eq.
Defined.

(** X4: a fast exit never lowers the back-off: with the back-off [d]
    between 0 and [maxRestartDelay], the back-off [connectionLost] leaves
    after an exit within [threshold] is at least [d] and at most
    [maxRestartDelay]. *)
Theorem backoff_nondecreasing cfg name w proto started d :
  (0 <= d)%Q → (d <= maxRestartDelay cfg)%Q →
  (rightNow w - started < threshold cfg)%Q →
  protocols w !! name = Some proto →
  timeStarted w !! name = Some started →
  delay w !! name = Some d →
  ∃ w' d', connectionLost cfg name w = (Ok tt, w')
    ∧ delay w' !! name = Some d'
    ∧ (d <= d')%Q ∧ (d' <= maxRestartDelay cfg)%Q.
Proof.
  intros H0 Hmax Hfast Hp Ht Hd.
  destruct (connectionLost_spec cfg name w proto started d Hp Ht Hd)
    as (w' & E & Hdel & _).
  exists w'. eexists. split; [done|].
  rewrite Hdel, lookup_insert_eq. split; [done|].
  unfold next_delay. apply Qltb_lt in Hfast. rewrite Hfast. simpl.
  destruct (py_min_spec (d * 2) (maxRestartDelay cfg)) as [[? ->]|[? ->]];
    split; lra.
Qed.

Lemma backoff_nondecreasing_witness :
  (0 <= 1)%Q ∧ (1 <= maxRestartDelay scenario_cfg)%Q
  ∧ (rightNow w_exited - 0 < threshold scenario_cfg)%Q
  ∧ ∃ w' d', connectionLost scenario_cfg "foo" w_exited = (Ok tt, w')
      ∧ delay w' !! "foo" = Some d' ∧ (1 <= d')%Q.
Proof.
  assert (H0 : (0 <= 1)%Q) by (apply Qle_bool_iff; reflexivity).
  assert (H1 : (1 <= maxRestartDelay scenario_cfg)%Q)
    by (apply Qle_bool_iff; reflexivity).
  assert (H2 : (rightNow w_exited - 0 < threshold scenario_cfg)%Q)
    by (apply Qltb_lt; compute_eq).
  assert (H3 : protocols w_exited !! "foo" = Some 0%nat) by compute_eq.
  assert (H4 : timeStarted w_exited !! "foo" = Some 0%Q) by compute_eq.
  assert (H5 : delay w_exited !! "foo" = Some 1%Q) by compute_eq.
  destruct (backoff_nondecreasing scenario_cfg "foo" w_exited 0 0 1
              H0 H1 H2 H3 H4 H5) as (w' & d' & E & Hd & Hle & _).
  repeat and_split; try assumption.
  exists w', d'. by repeat and_split.
Defined.

(** ** One name at a time *)

(** X5: [startProcess], [stopProcess] and [connectionLost] for one name
    leave the entries of every other name, in all six tables, as they
    were, whatever they return or raise. *)
Theorem other_names_untouched cfg name name' w :
  name' ≠ name →
  same_entries name' w (startProcess name w).2
  ∧ same_entries name' w (stopProcess cfg name w).2
  ∧ same_entries name' w (connectionLost cfg name w).2.
Proof.
  intros Hne. unfold same_entries. repeat and_split.
  all: mrun; wsimpl; rewrite ?lookup_insert_ne, ?lookup_delete_ne by done;
    done.
Qed.

Lemma other_names_untouched_witness :
  "bar" ≠ "foo"
  ∧ same_entries "bar" w_no_args (stopProcess defaults "foo" w_no_args).2.
Proof.
  assert (H : "bar" ≠ "foo") by discriminate.
  split; [assumption|].
  apply (other_names_untouched defaults "foo" "bar" w_no_args H).
Defined.

(** ** restartAll *)

(** X6: when every protocol instance the monitor keeps has its process,
    [restartAll] returns normally, sends [TERM] to every registered process
    that is running and arms its kill timer, and does nothing else: it
    spawns nothing, and the registry, the protocol table, the restart
    timers and the delayed calls that existed are as before. *)
Theorem restartAll_spec cfg w :
  connected w →
  ∃ w', restartAll cfg w = (Ok tt, w')
    ∧ stop_frame w w'
    ∧ (∀ name proc, is_Some (_processes w !! name) →
         protocols w !! name = Some proc → status_of w proc = Some Alive →
         term_sent cfg (rightNow w) name proc w').
Proof.
  intros Hc.
  assert (Hall : ∀ n, n ∈ dict_keys w → is_Some (_processes w !! n)).
  { intros n. apply elem_of_dict_keys. }
  destruct (stop_all_ok cfg _ w Hall Hc) as (w' & E & F).
  assert (Er : restartAll cfg w = (Ok tt, w')).
  { unfold restartAll, bind, gets. by rewrite E. }
  exists w'. split; [done|]. split; [done|].
  intros name proc Hreg Hp Hs.
  change w' with (@Ok unit tt, w').2. rewrite <- E.
  eapply (stop_all_term cfg (rightNow w)); try done.
  left. by apply elem_of_dict_keys.
Qed.

Lemma restartAll_spec_witness :
  connected w_running
  ∧ ∃ w', restartAll defaults w_running = (Ok tt, w')
      ∧ term_sent defaults (rightNow w_running) "foo" 0 w'.
Proof.
  split; [apply connected_w_running|].
  destruct (restartAll_spec defaults w_running connected_w_running)
    as (w' & E & _ & Ht).
  exists w'. split; [assumption|].
  apply Ht; [eexists; compute_eq | compute_eq | compute_eq].
Defined.

(** ** Removing and adding a name whose process still runs *)

(** X7: when a name is removed while its process runs and is added again
    before the process has exited, on a running service, nothing is
    spawned: [removeProcess] sends [TERM], [addProcess] registers the new
    details with back-off [minRestartDelay], and the name keeps the
    protocol of the old process. *)
Theorem remove_then_add_keeps_process cfg name args uid gid env cwd w proc :
  running w = true → is_Some (_processes w !! name) →
  protocols w !! name = Some proc → status_of w proc = Some Alive →
  ∃ w1 w2, removeProcess cfg name w = (Ok tt, w1)
    ∧ addProcess cfg name args uid gid env cwd w1 = (Ok tt, w2)
    ∧ protocols w2 !! name = Some proc
    ∧ status_of w2 proc = Some Alive
    ∧ TERM ∈ signals_of w2 proc
    ∧ protos w2 = protos w1 ∧ length (protos w1) = length (protos w)
    ∧ _processes w2 !! name = Some (mk_Process args uid gid env cwd)
    ∧ delay w2 !! name = Some (minRestartDelay cfg).
Proof.
  intros Hrun Hreg Hp Hs.
  destruct (stopProcess_alive cfg name w proc Hreg Hp Hs)
    as (w0 & E0 & Hsig & Hst & _ & _ & Hrun0 & Hps0 & Hpr0 & _).
  assert (Hlen : length (protos w0) = length (protos w)).
  { destruct (status_of_Some _ _ _ Hs) as (p & t & Hpp & Ht & Hst').
    revert E0. clear -Hreg Hp Hpp Ht Hst'. intros E0.
    destruct Hreg as [x Hx]. mrun. wsimpl. by rewrite length_alter. }
  assert (E1 : removeProcess cfg name w
               = (Ok tt, delitem_processes name w0)).
  { destruct Hreg as [x Hx].
    unfold removeProcess, bind, getitem, modify. rewrite E0. simpl.
    by rewrite Hps0, Hx. }
  set (w1 := delitem_processes name w0).
  assert (E2 : addProcess cfg name args uid gid env cwd w1
    = (Ok tt, registered cfg name (mk_Process args uid gid env cwd) w1)).
  { rewrite addProcess_new by (simpl; by rewrite lookup_delete_eq).
    simpl. rewrite Hrun0, Hrun. apply startProcess_live. simpl.
    rewrite Hpr0, Hp. by eexists. }
  exists w1, (registered cfg name (mk_Process args uid gid env cwd) w1).
  split; [done|]. split; [done|]. simpl.
  rewrite !lookup_insert_eq, Hpr0.
  repeat and_split; try done.
  rewrite <- (app_nil_r (signals_of w proc)) in Hsig.
  unfold signals_of in *. simpl. rewrite Hsig. rewrite app_nil_r.
  rewrite elem_of_app. right. by left.
Qed.

Lemma remove_then_add_keeps_process_witness :
  running w_running = true ∧ is_Some (_processes w_running !! "foo")
  ∧ protocols w_running !! "foo" = Some 0%nat
  ∧ status_of w_running 0 = Some Alive
  ∧ ∃ w1 w2, removeProcess defaults "foo" w_running = (Ok tt, w1)
      ∧ addProcess defaults "foo" ["foo2"] None None ∅ None w1 = (Ok tt, w2)
      ∧ protocols w2 !! "foo" = Some 0%nat ∧ protos w2 = protos w1.
Proof.
  assert (H1 : running w_running = true) by compute_eq.
  assert (H2 : is_Some (_processes w_running !! "foo"))
    by (eexists; compute_eq).
  assert (H3 : protocols w_running !! "foo" = Some 0%nat) by compute_eq.
  assert (H4 : status_of w_running 0 = Some Alive) by compute_eq.
  destruct (remove_then_add_keeps_process defaults "foo" ["foo2"] None None
              ∅ None w_running 0 H1 H2 H3 H4)
    as (w1 & w2 & E1 & E2 & Hp & _ & _ & Hpr & _).
  repeat and_split; try assumption.
  exists w1, w2. by repeat and_split.
Defined.

(** ** startService *)

Lemma start_frame_refl w : start_frame w w.
Proof. unfold start_frame. repeat and_split; auto. Qed.

Lemma start_frame_trans w1 w2 w3 :
  start_frame w1 w2 → start_frame w2 w3 → start_frame w1 w3.
Proof.
  unfold start_frame. intros H1 H2. destruct_and!.
  repeat and_split; try congruence; auto.
  intros name proto Hp.
  match goal with
  | H : ∀ name proto, protocols w1 !! name = Some proto → _ |- _ =>
      destruct (H name proto Hp) as [Hp2 Ht2]
  end.
  match goal with
  | H : ∀ name proto, protocols w2 !! name = Some proto → _ |- _ =>
      destruct (H name proto Hp2) as [Hp3 Ht3]
  end.
  split; congruence.
Qed.

Lemma start_frame_length w w' :
  start_frame w w' → (length (protos w) ≤ length (protos w'))%nat.
Proof.
  intros (_ & _ & _ & _ & _ & _ & _ & _ & Hpre & _).
  destruct (decide (length (protos w) ≤ length (protos w'))%nat); [done|].
  destruct (lookup_lt_is_Some_2 (protos w) (length (protos w'))) as [p Hp];
    [lia|].
  apply Hpre in Hp. apply lookup_lt_Some in Hp. lia.
Qed.

Lemma start_frame_status w w' proto s :
  start_frame w w' → status_of w proto = Some s →
  status_of w' proto = Some s.
Proof.
  intros (_ & _ & _ & _ & _ & _ & _ & _ & Hpre & _) Hs.
  unfold status_of in *.
  destruct (protos w !! proto) as [p|] eqn:Hp; [|done].
  by rewrite (Hpre _ _ Hp).
Qed.

Lemma start_frame_push w p name :
  protocols w !! name = None →
  start_frame w
    (set_protos (λ l, l ++ [p])
       (set_timeStarted <[name := rightNow w]>
          (set_protocols <[name := length (protos w)]> w))).
Proof.
  intros Hn. unfold start_frame. simpl. repeat and_split; try done.
  - intros proto q Hq. by apply lookup_app_l_Some.
  - intros n proto Hp. assert (n ≠ name) by congruence.
    by rewrite !lookup_insert_ne.
Qed.

(** What [startProcess] leaves alone, on every path through it. *)
Lemma startProcess_start_frame name w :
  start_frame w (startProcess name w).2.
Proof.
  destruct (protocols w !! name) as [proto|] eqn:Hp.
  { rewrite startProcess_live by done. apply start_frame_refl. }
  destruct (_processes w !! name) as [process|] eqn:Hr.
  2:{ rewrite startProcess_unregistered by done. apply start_frame_refl. }
  destruct (args process) as [|executable rest] eqn:Ha.
  - rewrite (startProcess_no_args _ _ process) by done.
    exact (start_frame_push w (mkLoggingProtocol name true None None)
             name Hp).
  - rewrite (startProcess_spawns _ _ process executable rest) by done.
    exact (start_frame_push w _ name Hp).
Qed.

Lemma startProcess_started name w process :
  _processes w !! name = Some process → args process ≠ [] →
  (startProcess name w).1 = Ok tt ∧ started name w (startProcess name w).2.
Proof.
  intros Hr Ha. unfold started.
  destruct (protocols w !! name) as [proto|] eqn:Hp.
  { rewrite startProcess_live by done. simpl. by rewrite Hp. }
  destruct (args process) as [|executable rest] eqn:Hargs; [done|].
  rewrite (startProcess_spawns _ _ process executable rest) by done.
  split; [done|]. exists (length (protos w)). simpl.
  rewrite !lookup_insert_eq. repeat and_split; try done.
  unfold status_of. simpl. by rewrite lookup_snoc.
Qed.

(** A name that has been started stays started while others are. *)
Lemma started_frame name w w1 w' :
  start_frame w w1 → start_frame w1 w' →
  started name w w1 ∨ (protocols w1 !! name = None ∧ started name w1 w') →
  started name w w'.
Proof.
  intros F1 F2 H.
  pose proof (start_frame_length _ _ F1) as Hlen.
  pose proof F1 as (_ & _ & _ & _ & _ & Hnow & _ & _ & _ & Hk1).
  pose proof F2 as (_ & _ & _ & _ & _ & _ & _ & _ & _ & Hk2).
  unfold started in *. destruct (protocols w !! name) as [proto|] eqn:Hp.
  - destruct (Hk1 _ _ Hp) as [Hp1 _]. destruct (Hk2 _ _ Hp1) as [Hp2 _].
    done.
  - destruct H as [(proto & Hp1 & Hge & Hs & Ht)|[Hn H]].
    + destruct (Hk2 _ _ Hp1) as [Hp2 Ht2]. exists proto.
      repeat and_split; try done; [by eapply start_frame_status|].
      congruence.
    + rewrite Hn in H. destruct H as (proto & Hp2 & Hge & Hs & Ht).
      exists proto. repeat and_split; try done; [lia | congruence].
Qed.

Lemma startProcess_other name name' w :
  name' ≠ name →
  protocols (startProcess name w).2 !! name' = protocols w !! name'.
Proof. intros Hne. mrun; wsimpl; by rewrite ?lookup_insert_ne. Qed.

(** The loop of [startService]. *)
Lemma start_all (l : list string) w :
  (∀ n, n ∈ l → ∃ process, _processes w !! n = Some process
                           ∧ args process ≠ []) →
  ∃ w', for_each l startProcess w = (Ok tt, w') ∧ start_frame w w'
    ∧ ∀ n, n ∈ l → started n w w'.
Proof.
  revert w. induction l as [|x l IH]; intros w Hall; simpl.
  - exists w. split; [done|]. split; [apply start_frame_refl|].
    intros n Hn. by apply elem_of_nil in Hn.
  - destruct (Hall x) as (process & Hr & Ha); [by left|].
    destruct (startProcess_started x w process Hr Ha) as [Hok Hst].
    pose proof (startProcess_start_frame x w) as F1.
    pose proof (λ n, startProcess_other x n w) as Hother.
    unfold bind. destruct (startProcess x w) as [r w1]. simpl in *.
    subst r.
    destruct (IH w1) as (w' & E & F2 & Hl).
    { intros n Hn. destruct F1 as (_ & -> & _). apply Hall. by right. }
    exists w'. split; [done|]. split; [by eapply start_frame_trans|].
    intros n Hn. eapply started_frame; [done|done|].
    destruct (decide (n = x)) as [->|Hne]; [by left|].
    apply elem_of_cons in Hn as [?|Hn]; [done|].
    destruct (protocols w1 !! n) as [proto|] eqn:Hp1; [|right; auto].
    left. unfold started. rewrite <- (Hother n Hne), Hp1. done.
Qed.

(** X8: when every registered process has a non-empty argument list,
    [startService] marks the service as running and leaves every
    registered name with a protocol instance: the one it had, untouched, or
    a new one whose process runs and is stamped with the current time.  It
    touches no back-off, no timer and no protocol instance that existed. *)
Theorem startService_spec w :
  (∀ name process, _processes w !! name = Some process →
     args process ≠ []) →
  ∃ w', startService w = (Ok tt, w')
    ∧ running w' = true
    ∧ start_frame (set_running true w) w'
    ∧ ∀ name, is_Some (_processes w !! name) → started name w w'.
Proof.
  intros Hargs.
  destruct (start_all (dict_keys w) (set_running true w))
    as (w' & E & F & Hl).
  { intros n [x Hx]%elem_of_dict_keys. exists x. split; [done|].
    by eapply Hargs. }
  exists w'. split; [exact E|].
  split; [by destruct F as (-> & _)|]. split; [done|].
  intros name Hreg. apply (Hl name). by apply elem_of_dict_keys.
Qed.

Lemma startService_spec_witness :
  (∀ name process,
     _processes (after defaults [add_foo]) !! name = Some process →
     args process ≠ [])
  ∧ ∃ w', startService (after defaults [add_foo]) = (Ok tt, w')
      ∧ running w' = true
      ∧ started "foo" (after defaults [add_foo]) w'.
Proof.
  assert (H : ∀ name process,
     _processes (after defaults [add_foo]) !! name = Some process →
     args process ≠ []).
  { intros name process Hp.
    assert (E : _processes (after defaults [add_foo])
                = {["foo" := mk_Process ["foo"] None None ∅ None]})
      by compute_eq.
    rewrite E in Hp. apply lookup_singleton_Some in Hp as [_ <-].
    discriminate. }
  split; [assumption|].
  destruct (startService_spec (after defaults [add_foo]) H)
    as (w' & E & Hrun & _ & Hst).
  exists w'. repeat and_split; try assumption.
  apply Hst. eexists. compute_eq.
Defined.

(** ** startService, when a process cannot be launched *)

Lemma for_each_app {A} (l1 l2 : list A) (f : A → M unit) w :
  for_each (l1 ++ l2) f w = (for_each l1 f ;;; for_each l2 f) w.
Proof.
  revert w. induction l1 as [|x l1 IH]; intros w; simpl; [done|].
  unfold bind in *. destruct (f x w) as [[[]|e] w1]; [apply IH | done].
Qed.

Lemma start_all_others (l : list string) n w :
  n ∉ l → protocols (for_each l startProcess w).2 !! n = protocols w !! n.
Proof.
  revert w. induction l as [|x l IH]; intros w Hn; simpl; [done|].
  apply not_elem_of_cons in Hn as [Hne Hn].
  pose proof (startProcess_other x n w Hne) as Hx.
  unfold bind. destruct (startProcess x w) as [[[]|e] w1]; simpl in *.
  - by rewrite IH.
  - done.
Qed.

(** X16: [startService] starts the processes in the order in which they
    were added and stops at the first that cannot be launched: when a
    registered process has an empty argument list and no protocol
    instance, [startService] raises [IndexError]; the service is marked as
    running, the names added before that one have their process, and the
    names added after it are not started. *)
Theorem startService_stops_at_first_failure w before name after process :
  dict_keys w = before ++ name :: after →
  (∀ n, n ∈ before →
     ∃ p, _processes w !! n = Some p ∧ args p ≠ []) →
  _processes w !! name = Some process → args process = [] →
  protocols w !! name = None →
  ∃ w', startService w = (Raise IndexError, w')
    ∧ running w' = true
    ∧ (∀ n, n ∈ before → started n w w')
    ∧ (∀ n, n ∉ before → n ≠ name →
         protocols w' !! n = protocols w !! n).
Proof.
  intros Hkeys Hbefore Hreg Hargs Hp.
  assert (Hnot : name ∉ before).
  { intros Hin. destruct (Hbefore name Hin) as (p & Hp' & Ha). congruence. }
  destruct (start_all before (set_running true w)) as (w1 & E1 & F1 & Hl).
  { intros n Hn. by apply Hbefore. }
  pose proof (start_all_others before name (set_running true w) Hnot) as Ho.
  rewrite E1 in Ho. simpl in Ho.
  pose proof F1 as (Hrun & Hps & _). simpl in Hrun, Hps.
  assert (Hreg1 : _processes w1 !! name = Some process) by (by rewrite Hps).
  assert (Hp1 : protocols w1 !! name = None) by congruence.
  pose proof (startProcess_no_args name w1 process Hp1 Hreg1 Hargs) as E2.
  pose proof (startProcess_start_frame name w1) as F2.
  rewrite E2 in F2. simpl in F2.
  eexists. split; [|split; [|split]].
  - unfold startService, Service_startService.
    change ((modify (set_running true) ;;;
             names <- gets dict_keys ;; for_each names startProcess) w)
      with (for_each (dict_keys w) startProcess (set_running true w)).
    rewrite Hkeys, for_each_app. unfold bind at 1. rewrite E1. simpl.
    unfold bind. rewrite E2. reflexivity.
  - simpl. done.
  - intros n Hn.
    apply (started_frame n (set_running true w) w1);
      [exact F1 | exact F2 | left; apply (Hl n Hn)].
  - intros n Hn Hne. simpl. rewrite lookup_insert_ne by congruence.
    pose proof (start_all_others before n (set_running true w) Hn) as Hn1.
    by rewrite E1 in Hn1.
Qed.

Lemma startService_stops_at_first_failure_witness :
  dict_keys w_three = ["zed"] ++ "bad" :: ["abc"]
  ∧ protocols w_three !! "bad" = None
  ∧ ∃ w', startService w_three = (Raise IndexError, w')
      ∧ running w' = true
      ∧ started "zed" w_three w'
      ∧ protocols w' !! "abc" = None.
Proof.
  assert (H0 : dict_keys w_three = ["zed"] ++ "bad" :: ["abc"])
    by compute_eq.
  assert (H1 : _processes w_three !! "bad"
               = Some (mk_Process [] None None ∅ None)) by compute_eq.
  assert (H2 : protocols w_three !! "bad" = None) by compute_eq.
  destruct (startService_stops_at_first_failure w_three ["zed"] "bad"
              ["abc"] (mk_Process [] None None ∅ None) H0)
    as (w' & E & Hrun & Hb & Ha);
    [| exact H1 | reflexivity | exact H2 |].
  { intros n ->%list_elem_of_singleton. eexists. split; [compute_eq|done]. }
  split; [exact H0|]. split; [exact H2|].
  exists w'. split; [exact E|]. split; [exact Hrun|]. split.
  - apply Hb. by apply list_elem_of_singleton.
  - rewrite (Ha "abc"); [compute_eq | | done].
    by intros ?%list_elem_of_singleton.
Defined.

(** ** What the kept timers are for *)

(** The function of a delayed call is never changed. *)
Lemma alter_keeps_func (g : DelayedCall → DelayedCall) (i : nat)
    (cs : list DelayedCall) (dc : nat) (c : DelayedCall) :
  (∀ c, dc_func (g c) = dc_func c) → cs !! dc = Some c →
  ∃ c', alter g i cs !! dc = Some c' ∧ dc_func c' = dc_func c.
Proof.
  intros Hg Hc. destruct (decide (i = dc)) as [->|Hne].
  - rewrite list_lookup_alter_eq, Hc. simpl. eauto.
  - rewrite list_lookup_alter_ne by done. eauto.
Qed.

(** The tables and the calls after [connectionLost], on every path. *)
Lemma connectionLost_shape cfg name w :
  let w' := (connectionLost cfg name w).2 in
  let cs := match murder w !! name with
            | Some dc => if pending w dc
                         then alter mark_cancelled dc (calls w) else calls w
            | None => calls w
            end in
  murder w' = delete name (murder w)
  ∧ (protocols w' = protocols w ∨ protocols w' = delete name (protocols w))
  ∧ ((restart w' = restart w ∧ calls w' = cs)
     ∨ ∃ t, restart w' = <[name := length (calls w)]> (restart w)
         ∧ calls w' = cs ++ [mkDelayedCall t (CbStartProcess name)
                               false false]).
Proof.
  simpl. mrun; wsimpl; rewrite ?length_alter;
    (split; [first [done | by rewrite delete_id]|]);
    (split; [auto|]); first [ by left | right; by eexists ].
Qed.

Lemma inv_timers_calls w w' :
  restart w' = restart w → murder w' = murder w →
  protocols w' = protocols w →
  (∀ dc c, calls w !! dc = Some c →
     ∃ c', calls w' !! dc = Some c' ∧ dc_func c' = dc_func c) →
  inv_timers w → inv_timers w'.
Proof.
  intros Hr Hm Hp Hc [H1 H2]. split.
  - intros name dc. rewrite Hr. intros (c & Hdc & Hf)%H1.
    destruct (Hc _ _ Hdc) as (c' & ? & ?). exists c'. split; congruence.
  - intros name dc. rewrite Hm, Hp. intros (c & proc & Hdc & Hf & ?)%H2.
    destruct (Hc _ _ Hdc) as (c' & ? & ?). exists c', proc.
    repeat and_split; congruence.
Qed.

Lemma inv_timers_frame {A} (m : M A) :
  (∀ w, restart (m w).2 = restart w ∧ murder (m w).2 = murder w
        ∧ protocols (m w).2 = protocols w ∧ calls (m w).2 = calls w) →
  preserves inv_timers m.
Proof.
  intros Hm w H. destruct (Hm w) as (Hr & Hmu & Hp & Hc).
  eapply inv_timers_calls; try done. rewrite Hc. eauto.
Qed.

Lemma inv_timers_startProcess name : preserves inv_timers (startProcess name).
Proof.
  intros w [H1 H2].
  assert (Hpush : ∀ w', restart w' = restart w → murder w' = murder w →
    calls w' = calls w → protocols w !! name = None →
    protocols w' = <[name := length (protos w)]> (protocols w) →
    inv_timers w').
  { intros w' Hr Hm Hc Hn Hp. split.
    - intros n dc. rewrite Hr, Hc. apply H1.
    - intros n dc. rewrite Hm, Hc, Hp.
      intros (c & proc & ? & ? & Hpr)%H2. exists c, proc.
      repeat and_split; try done.
      rewrite lookup_insert_ne; [done | congruence]. }
  destruct (protocols w !! name) as [proto|] eqn:Hp.
  { by rewrite startProcess_live. }
  destruct (_processes w !! name) as [process|] eqn:Hr.
  2:{ by rewrite startProcess_unregistered. }
  destruct (args process) as [|executable rest] eqn:Ha.
  - rewrite (startProcess_no_args _ _ process) by done. by apply Hpush.
  - rewrite (startProcess_spawns _ _ process executable rest) by done.
    by apply Hpush.
Qed.

Lemma inv_timers_stopProcess cfg name :
  preserves inv_timers (stopProcess cfg name).
Proof.
  intros w [H1 H2]. mrun; wsimpl; try done. split; simpl.
  - intros nm dc (c & ? & ?)%H1. exists c.
    split; [by apply lookup_app_l_Some | done].
  - intros nm dc. rewrite lookup_insert. case_decide as E.
    + intros [= <-]. subst. eexists _, _. rewrite lookup_snoc.
      repeat and_split; done.
    + intros (c & proc & ? & ? & ?)%H2. exists c, proc.
      repeat and_split; try done. by apply lookup_app_l_Some.
Qed.

Lemma inv_timers_connectionLost cfg name :
  preserves inv_timers (connectionLost cfg name).
Proof.
  intros w [H1 H2].
  destruct (connectionLost_shape cfg name w) as (Hm & Hp & Hrc).
  set (cs := match murder w !! name with
             | Some dc => if pending w dc
                          then alter mark_cancelled dc (calls w)
                          else calls w
             | None => calls w
             end) in *.
  assert (Hcs : ∀ dc c, calls w !! dc = Some c →
    ∃ c', cs !! dc = Some c' ∧ dc_func c' = dc_func c).
  { intros dc c Hc. unfold cs.
    destruct (murder w !! name) as [dc0|]; [|eauto].
    destruct (pending w dc0); [|eauto]. by apply alter_keeps_func. }
  assert (Hlen : length cs = length (calls w)).
  { unfold cs. destruct (murder w !! name) as [dc0|]; [|done].
    destruct (pending w dc0); [|done]. by rewrite length_alter. }
  assert (Hcalls : ∀ dc c, calls w !! dc = Some c →
    ∃ c', calls (connectionLost cfg name w).2 !! dc = Some c'
          ∧ dc_func c' = dc_func c).
  { intros dc c Hc. destruct (Hcs _ _ Hc) as (c' & Hc' & Hf).
    exists c'. split; [|done].
    destruct Hrc as [[_ ->]|(t & _ & ->)]; [done|].
    by apply lookup_app_l_Some. }
  split.
  - intros n dc Hr. destruct Hrc as [[Hre _]|(t & Hre & Hc)].
    + rewrite Hre in Hr. destruct (H1 _ _ Hr) as (c & Hc & Hf).
      destruct (Hcalls _ _ Hc) as (c' & ? & ?). exists c'.
      split; congruence.
    + rewrite Hre, lookup_insert in Hr. case_decide as E.
      * injection Hr as <-. subst. eexists. rewrite Hc, <- Hlen.
        rewrite lookup_snoc. done.
      * destruct (H1 _ _ Hr) as (c & Hc0 & Hf).
        destruct (Hcalls _ _ Hc0) as (c' & ? & ?). exists c'.
        split; congruence.
  - intros n dc. rewrite Hm. intros Hmu.
    apply lookup_delete_Some in Hmu as [Hne Hmu].
    destruct (H2 _ _ Hmu) as (c & proc & Hc & Hf & Hpr).
    destruct (Hcalls _ _ Hc) as (c' & ? & ?). exists c', proc.
    repeat and_split; try congruence.
    destruct Hp as [->| ->]; [done | by rewrite lookup_delete_ne].
Qed.

Lemma inv_timers_obligations cfg : step_obligations inv_timers cfg.
Proof.
  assert (Ho : ∀ proto data,
    preserves inv_timers (dataReceived proto data)
    ∧ preserves inv_timers (outReceived proto data)).
  { intros. by apply preserves_outReceived. }
  assert (Halter : ∀ g dc w, (∀ c, dc_func (g c) = dc_func c) →
    inv_timers w → inv_timers (set_calls (alter g dc) w)).
  { intros g dc w Hg. apply inv_timers_calls; try done.
    intros dc' c Hc. simpl. by apply alter_keeps_func. }
  split; try done.
  - apply inv_timers_startProcess.
  - apply inv_timers_stopProcess.
  - intros proc. apply inv_timers_frame. intros w. by mrun.
  - intros proto data. apply Ho.
  - intros proto w H _. revert w H.
    change (preserves inv_timers
              (set_status Ended proto ;;; processEnded cfg proto)).
    unfold processEnded. pres; try apply Ho; [by intros w H|].
    apply inv_timers_connectionLost.
  - intros dc w H _. by apply Halter.
  - intros dc w H _. by apply Halter.
Qed.

(** X9: in every store the monitor can reach, the restart timer kept under
    a name is a call of [startProcess] for that very name, and the kill
    timer kept under a name is a call of [_forceStopProcess] for the
    process that the monitor keeps under that name: a timer never acts on
    another name's process. *)
Theorem timers_target_their_name cfg w :
  reachable cfg w →
  (∀ name dc, restart w !! name = Some dc →
     ∃ c, calls w !! dc = Some c ∧ dc_func c = CbStartProcess name)
  ∧ (∀ name dc, murder w !! name = Some dc →
       ∃ c proc, calls w !! dc = Some c
         ∧ dc_func c = CbForceStopProcess proc
         ∧ protocols w !! name = Some proc).
Proof.
  intros [evs Hr].
  apply (run_preserves cfg inv_timers evs init w);
    [apply inv_timers_obligations | done |].
  split; intros n dc; simpl; by rewrite lookup_empty.
Qed.

Lemma timers_target_their_name_witness :
  reachable defaults w_stopped
  ∧ murder w_stopped !! "foo" = Some 0%nat
  ∧ ∃ c proc, calls w_stopped !! 0%nat = Some c
      ∧ dc_func c = CbForceStopProcess proc
      ∧ protocols w_stopped !! "foo" = Some proc.
Proof.
  assert (H : reachable defaults w_stopped)
    by (apply reachable_after; eexists; compute_eq).
  split; [assumption|]. split; [compute_eq|].
  destruct (timers_target_their_name defaults w_stopped H) as [_ Hm].
  apply (Hm "foo"). compute_eq.
Defined.

(** ** The tables agree *)

(** [inv_tables] survives whatever keeps the names of the protocol
    instances, removes entries from [protocols] and [_processes] only, and
    adds entries to [timeStarted] and [delay] only. *)
Lemma inv_tables_mono w w' :
  (∀ i p, protos w !! i = Some p →
     ∃ p', protos w' !! i = Some p' ∧ lp_name p' = lp_name p) →
  (∀ n p, protocols w' !! n = Some p → protocols w !! n = Some p) →
  (∀ n, is_Some (timeStarted w !! n) → is_Some (timeStarted w' !! n)) →
  (∀ n, is_Some (delay w !! n) → is_Some (delay w' !! n)) →
  (∀ n, is_Some (_processes w' !! n) → is_Some (_processes w !! n)) →
  inv_tables w → inv_tables w'.
Proof.
  intros Hpr Hp Ht Hd Hr (Ha & Hb & Hc). unfold inv_tables.
  repeat and_split.
  - intros n proto Hn. destruct (Ha n proto (Hp _ _ Hn)) as (p & Hpp & <-).
    destruct (Hpr _ _ Hpp) as (p' & ? & ?). by exists p'.
  - intros n [proto Hn]. apply Ht, Hb. exists proto. by apply Hp.
  - intros n [[proto Hn]|Hn]; apply Hd, Hc.
    + left. exists proto. by apply Hp.
    + right. by apply Hr.
Qed.

Lemma names_alter (g : LoggingProtocol → LoggingProtocol) (j : nat)
    (ps : list LoggingProtocol) :
  (∀ p, lp_name (g p) = lp_name p) →
  ∀ i p, ps !! i = Some p →
    ∃ p', alter g j ps !! i = Some p' ∧ lp_name p' = lp_name p.
Proof.
  intros Hg i p Hp. destruct (decide (j = i)) as [->|Hne].
  - rewrite list_lookup_alter_eq, Hp. simpl. eauto.
  - rewrite list_lookup_alter_ne by done. eauto.
Qed.

(** A method that only rewrites attributes of protocol instances other
    than their names, and tables other than the four of [inv_tables]. *)
Lemma inv_tables_frame {A} (m : M A) :
  (∀ w, (protos (m w).2 = protos w
         ∨ ∃ g j, (∀ p, lp_name (g p) = lp_name p)
                  ∧ protos (m w).2 = alter g j (protos w))
        ∧ protocols (m w).2 = protocols w
        ∧ timeStarted (m w).2 = timeStarted w
        ∧ delay (m w).2 = delay w
        ∧ _processes (m w).2 = _processes w) →
  preserves inv_tables m.
Proof.
  intros Hm w. destruct (Hm w) as (Hpr & Hp & Ht & Hd & Hr).
  apply inv_tables_mono; rewrite ?Hp, ?Ht, ?Hd, ?Hr; try done.
  destruct Hpr as [->|(g & j & Hg & ->)]; [eauto|]. by apply names_alter.
Qed.

Lemma inv_tables_startProcess name : preserves inv_tables (startProcess name).
Proof.
  intros w (Ha & Hb & Hc).
  assert (Hpush : ∀ p w', lp_name p = name →
    protocols w !! name = None → is_Some (_processes w !! name) →
    protos w' = protos w ++ [p] →
    protocols w' = <[name := length (protos w)]> (protocols w) →
    timeStarted w' = <[name := rightNow w]> (timeStarted w) →
    delay w' = delay w → _processes w' = _processes w →
    inv_tables w').
  { intros p w' Hn Hnone Hreg Hpr Hp Ht Hd Hr. unfold inv_tables.
    repeat and_split.
    - intros n proto. rewrite Hp, Hpr, lookup_insert. case_decide as E.
      + intros [= <-]. subst. exists p. by rewrite lookup_snoc.
      + intros (q & ? & ?)%Ha. exists q.
        split; [by apply lookup_app_l_Some | done].
    - intros n. rewrite Hp, Ht, !lookup_insert.
      case_decide; [by eexists | apply Hb].
    - intros n. rewrite Hp, Hd, Hr, lookup_insert. case_decide as E.
      + subst. intros _. apply Hc. by right.
      + apply Hc. }
  destruct (protocols w !! name) as [proto|] eqn:Hp.
  { by rewrite startProcess_live. }
  destruct (_processes w !! name) as [process|] eqn:Hr.
  2:{ by rewrite startProcess_unregistered. }
  destruct (args process) as [|executable rest] eqn:Hargs.
  - rewrite (startProcess_no_args _ _ process) by done.
    by eapply (Hpush (mkLoggingProtocol name true None None)).
  - rewrite (startProcess_spawns _ _ process executable rest) by done.
    by eapply (Hpush (mkLoggingProtocol name true _ _)).
Qed.

Lemma inv_tables_signal cfg name proc :
  preserves inv_tables (stopProcess cfg name)
  ∧ preserves inv_tables (_forceStopProcess proc).
Proof.
  split; apply inv_tables_frame; intros w; mrun; wsimpl;
    repeat and_split; try done;
    first [ by left
          | right; eexists _, _; split; [|reflexivity]; by intros [] ].
Qed.

Lemma inv_tables_connectionLost cfg name :
  preserves inv_tables (connectionLost cfg name).
Proof.
  intros w. apply inv_tables_mono.
  - rewrite connectionLost_protos. eauto.
  - intros n p. mrun; wsimpl; try done; by intros [_ ?]%lookup_delete_Some.
  - intros n. by mrun.
  - intros n. mrun; wsimpl; try done; rewrite lookup_insert;
      case_decide; try done; by eexists.
  - intros n. by mrun.
Qed.

Lemma inv_tables_step cfg ev w w' :
  step cfg ev w = Some w' → inv_tables w → inv_tables w'.
Proof.
  assert (Ho : ∀ proto data,
    preserves inv_tables (dataReceived proto data)
    ∧ preserves inv_tables (outReceived proto data)).
  { intros. apply preserves_outReceived; [done|].
    intros g i w0 Hn _ _. apply inv_tables_mono; try done. simpl.
    by apply names_alter. }
  assert (Hstart := inv_tables_startProcess).
  assert (Hstop : ∀ name, preserves inv_tables (stopProcess cfg name)).
  { intros name. apply (inv_tables_signal cfg name 0). }
  assert (Hforce : ∀ proc, preserves inv_tables (_forceStopProcess proc)).
  { intros proc. apply (inv_tables_signal cfg "" proc). }
  assert (Hstatus : ∀ s proto, preserves inv_tables (set_status s proto)).
  { intros s proto w0. apply inv_tables_mono; try done. simpl.
    by apply names_alter. }
  assert (Hcalls : ∀ f w0, inv_tables w0 → inv_tables (set_calls f w0))
    by done.
  intros Hs HP. unfold step in Hs.
  destruct (enabled w ev) eqn:Hen; [|done]. injection Hs as <-.
  clear Hen. revert w HP.
  change (preserves inv_tables (deliver cfg ev)).
  destruct ev as [name args' uid' gid' env' cwd' | name | | | name | name |
                  | amount | dc | proto data | proto | proto]; simpl.
  - intros w HP. destruct (_processes w !! name) as [x|] eqn:Hr.
    { by rewrite addProcess_duplicate. }
    rewrite addProcess_new by done.
    assert (Hreg : inv_tables (registered cfg name
                     (mk_Process args' uid' gid' env' cwd') w)).
    { destruct HP as (Ha & Hb & Hc). unfold inv_tables.
      repeat and_split; try done. simpl.
      intros n Hn. rewrite lookup_insert. case_decide; [by eexists|].
      apply Hc. rewrite lookup_insert_ne in Hn by done. done. }
    destruct (running w); [by apply Hstart | done].
  - unfold removeProcess. pres.
    match goal with H : inv_tables _ |- _ => revert H end.
    apply inv_tables_mono; try done; simpl.
    + eauto.
    + intros n [x [_ Hx]%lookup_delete_Some]. by eexists.
  - unfold startService, Service_startService. pres. done.
  - unfold stopService, Service_stopService, cancel_if_active, active,
      cancel. pres; done.
  - apply Hstart.
  - apply Hstop.
  - unfold restartAll. pres.
  - by intros w.
  - unfold fire, run_callback. pres; done.
  - apply Ho.
  - apply Hstatus.
  - unfold processEnded. pres; try apply Ho.
    apply inv_tables_connectionLost.
Qed.

Lemma inv_tables_reachable cfg w : reachable cfg w → inv_tables w.
Proof.
  intros [evs Hr]. revert Hr.
  assert (Hi : inv_tables init).
  { unfold inv_tables.
    repeat and_split; simpl; intros n; rewrite ?lookup_empty;
      try (by intros [? ?]); try (by intros ?); intros [[? ?]|[? ?]]; done. }
  revert Hi. generalize init. induction evs as [|ev evs IH]; simpl.
  - by intros w0 H [= <-].
  - intros w0 H Hr. destruct (step cfg ev w0) as [w1|] eqn:Hs; [|done].
    simpl in Hr. eapply IH; [|done]. by eapply inv_tables_step.
Qed.

Lemma inv_live_reachable cfg w : reachable cfg w → inv_live w.
Proof.
  intros [evs Hr].
  eapply run_preserves; [apply inv_live_obligations | done |].
  intros proto [H|H]; by vm_compute in H.
Qed.

(** X10: in every store the monitor can reach, [connectionLost] for the
    name of a process whose end has not been reported yet runs to its end
    without raising: the protocol, the start time and the back-off it
    reads are there.  Afterwards the name has no protocol. *)
Theorem connectionLost_never_raises cfg w proto p :
  reachable cfg w → protos w !! proto = Some p → live w proto →
  ∃ w', connectionLost cfg (lp_name p) w = (Ok tt, w')
    ∧ protocols w !! lp_name p = Some proto
    ∧ protocols w' !! lp_name p = None.
Proof.
  intros Hr Hp Hl.
  destruct (inv_live_reachable cfg w Hr proto Hl) as (q & Hq & Hreg).
  simplify_eq.
  destruct (inv_tables_reachable cfg w Hr) as (_ & Hb & Hc).
  destruct (Hb (lp_name p)) as [started Ht]; [by eexists|].
  destruct (Hc (lp_name p)) as [d Hd]; [left; by eexists|].
  destruct (connectionLost_spec cfg _ w proto started d Hreg Ht Hd)
    as (w' & E & _ & Hpr & _).
  exists w'. split; [done|]. split; [done|].
  by rewrite Hpr, lookup_delete_eq.
Qed.

Lemma connectionLost_never_raises_witness :
  reachable scenario_cfg w_exited ∧ live w_exited 0
  ∧ ∃ p w', protos w_exited !! 0%nat = Some p
      ∧ connectionLost scenario_cfg (lp_name p) w_exited = (Ok tt, w').
Proof.
  assert (H : reachable scenario_cfg w_exited)
    by (apply reachable_after; eexists; compute_eq).
  assert (Hl : live w_exited 0) by (right; compute_eq).
  split; [assumption|]. split; [assumption|].
  eexists. 
  edestruct (connectionLost_never_raises scenario_cfg w_exited 0) as
    (w' & E & _); [exact H | compute_eq | exact Hl |].
  exists w'. split; [reflexivity | exact E].
Defined.

(** X11: stopping a process does not stop it for good.  When the service
    runs and the name stays registered, [stopProcess] on a running process
    arms the kill timer, and [connectionLost] for the name, whenever the
    exit comes, cancels that timer and arms a restart timer for the
    name. *)
Theorem stopped_process_is_restarted cfg w name proc :
  reachable cfg w → running w = true → is_Some (_processes w !! name) →
  protocols w !! name = Some proc → status_of w proc = Some Alive →
  ∃ w1 dc, stopProcess cfg name w = (Ok tt, w1)
    ∧ murder w1 !! name = Some dc ∧ pending w1 dc = true
    ∧ ∀ t, ∃ w2 c,
        connectionLost cfg name (set_rightNow t w1) = (Ok tt, w2)
        ∧ pending w2 dc = false
        ∧ timer restart w2 name = Some c
        ∧ dc_func c = CbStartProcess name ∧ dc_active c = true.
Proof.
  intros Hr Hrun Hreg Hp Hs.
  destruct (inv_tables_reachable cfg w Hr) as (_ & Hb & Hc).
  destruct (Hb name) as [started Ht]; [by eexists|].
  destruct (Hc name) as [d Hd]; [left; by eexists|].
  destruct (stopProcess_alive cfg name w proc Hreg Hp Hs)
    as (w1 & E & _ & _ & Hm & Hcalls & Hrun1 & Hps1 & Hpr1 & Hd1 & Ht1 & _).
  exists w1, (length (calls w)). split; [done|].
  split; [by rewrite Hm, lookup_insert_eq|].
  split; [unfold pending; by rewrite Hcalls, lookup_snoc|].
  intros t. set (w1' := set_rightNow t w1).
  destruct (connectionLost_spec cfg name w1' proc started d)
    as (w2 & E2 & _ & _ & _ & _ & _ & _ & _ & _ & _ & Hsched);
    [simpl; congruence..|].
  simpl in Hsched. rewrite Hrun1, Hrun, Hps1 in Hsched.
  rewrite bool_decide_eq_true_2 in Hsched by done. simpl in Hsched.
  destruct Hsched as (Hre & Hcall & _).
  destruct (connectionLost_murder cfg name w1' (length (calls w))
    (mkDelayedCall (rightNow w + killTime cfg) (CbForceStopProcess proc)
       false false)) as (_ & Hpend & _).
  { simpl. by rewrite Hm, lookup_insert_eq. }
  { simpl. by rewrite Hcalls, lookup_snoc. }
  rewrite E2 in Hpend. simpl in Hpend.
  eexists w2, _. split; [done|]. split; [done|].
  unfold timer. rewrite Hre, lookup_insert_eq. simpl. rewrite Hcall.
  done.
Qed.

Lemma stopped_process_is_restarted_witness :
  reachable defaults w_running ∧ running w_running = true
  ∧ is_Some (_processes w_running !! "foo")
  ∧ protocols w_running !! "foo" = Some 0%nat
  ∧ status_of w_running 0 = Some Alive
  ∧ ∃ w1 dc, stopProcess defaults "foo" w_running = (Ok tt, w1)
      ∧ murder w1 !! "foo" = Some dc.
Proof.
  assert (H0 : reachable defaults w_running)
    by (apply reachable_after; eexists; compute_eq).
  assert (H1 : running w_running = true) by compute_eq.
  assert (H2 : is_Some (_processes w_running !! "foo"))
    by (eexists; compute_eq).
  assert (H3 : protocols w_running !! "foo" = Some 0%nat) by compute_eq.
  assert (H4 : status_of w_running 0 = Some Alive) by compute_eq.
  destruct (stopped_process_is_restarted defaults w_running "foo" 0
              H0 H1 H2 H3 H4) as (w1 & dc & E & Hm & _).
  repeat and_split; try assumption.
  exists w1, dc. by split.
Defined.

(** ** What is logged carries a process name *)

Lemma inv_tags_alter g i w :
  (∀ p, protos w !! i = Some p →
     lp_name (g p) = lp_name p
     ∧ ∀ out, lp_output (g p) = Some out → tag out = lp_name p) →
  inv_tags w → inv_tags (set_protos (alter g i) w).
Proof.
  intros Hg [Ha Hb]. split; simpl.
  - intros j q out Hq Ho. destruct (decide (i = j)) as [->|Hne].
    + rewrite list_lookup_alter_eq in Hq.
      destruct (protos w !! j) as [p|] eqn:Hp; simplify_eq/=.
      destruct (Hg p eq_refl) as [Hn Ht]. rewrite Hn. by apply Ht.
    + rewrite list_lookup_alter_ne in Hq by done. by eapply Ha.
  - intros m Hm. destruct (Hb m Hm) as (j & p & Hp & Hn).
    destruct (decide (i = j)) as [->|Hne].
    + exists j, (g p). rewrite list_lookup_alter_eq, Hp. simpl.
      split; [done|]. by destruct (Hg p Hp) as [-> _].
    + exists j, p. by rewrite list_lookup_alter_ne.
Qed.

Lemma inv_tags_frame w w' :
  protos w' = protos w → logged w' = logged w → inv_tags w → inv_tags w'.
Proof. intros Hp Hl [Ha Hb]. split; rewrite ?Hp, ?Hl; done. Qed.

Lemma inv_tags_push p w :
  (∀ out, lp_output p = Some out → tag out = lp_name p) →
  inv_tags w → inv_tags (set_protos (λ l, l ++ [p]) w).
Proof.
  intros Hp [Ha Hb]. split; simpl.
  - intros j q out [Hq|[_ Hq]]%lookup_app_Some Ho.
    + by eapply Ha.
    + apply list_lookup_singleton_Some in Hq as [_ <-]. by apply Hp.
  - intros m Hm. destruct (Hb m Hm) as (j & q & Hq & Hn).
    exists j, q. split; [|done]. apply lookup_app_l_Some, Hq.
Qed.

(** The lines handed to [lineReceived] are appended to the log, under the
    logger's tag. *)
Lemma for_each_lineReceived t ls w :
  ∃ w', for_each ls (lineReceived t) w = (Ok tt, w')
    ∧ logged w' = logged w ++ (mkLogMsg t <$> ls)
    ∧ protos w' = protos w.
Proof.
  revert w. induction ls as [|l ls IH]; intros w; simpl.
  - exists w. by rewrite app_nil_r.
  - destruct (IH (set_logged (λ l0, l0 ++ [mkLogMsg t l]) w))
      as (w' & E & Hl & Hp).
    exists w'. split; [exact E|]. simpl in *. by rewrite Hl, <- app_assoc.
Qed.

(** What [dataReceived] does to the log and to the protocol instances. *)
Lemma dataReceived_logged proto data w :
  ∃ ls, logged (dataReceived proto data w).2 = logged w ++ ls
    ∧ (∀ m, m ∈ ls → ∃ p out, protos w !! proto = Some p
                       ∧ lp_output p = Some out ∧ msg_tag m = tag out)
    ∧ ((dataReceived proto data w).2 = w ∨
       ∃ p out r, protos w !! proto = Some p ∧ lp_output p = Some out
         ∧ protos (dataReceived proto data w).2 =
             alter (set_output (Some (mkLineLogger (tag out) r))) proto
               (protos w)).
Proof.
  unfold dataReceived, bind, get_proto.
  destruct (protos w !! proto) as [p|] eqn:Hp; simpl.
  2:{ exists []. rewrite app_nil_r. split; [done|]. split; [|by left].
      intros ? []%elem_of_nil. }
  destruct (lp_output p) as [out|] eqn:Ho; simpl.
  2:{ exists []. rewrite app_nil_r. split; [done|]. split; [|by left].
      intros ? []%elem_of_nil. }
  destruct (split_lines (_buffer out) data) as [ls r]. simpl.
  unfold update_proto, modify. simpl.
  destruct (for_each_lineReceived (tag out) ls
    (set_protos (alter (set_output (Some (mkLineLogger (tag out) r))) proto)
       w)) as (w' & -> & Hl & Hpr).
  simpl in *. exists (mkLogMsg (tag out) <$> ls). split; [done|]. split.
  - intros m (l & -> & _)%list_elem_of_fmap. by exists p, out.
  - right. by exists p, out, r.
Qed.

Lemma inv_tags_logged w w' ls :
  protos w' = protos w → logged w' = logged w ++ ls →
  (∀ m, m ∈ ls → ∃ proto p, protos w !! proto = Some p
                   ∧ lp_name p = msg_tag m) →
  inv_tags w → inv_tags w'.
Proof.
  intros Hp Hl Hls [Ha Hb]. split; rewrite ?Hp, ?Hl; [done|].
  intros m [Hm|Hm]%elem_of_app; auto.
Qed.

Lemma inv_tags_dataReceived proto data :
  preserves inv_tags (dataReceived proto data).
Proof.
  intros w H.
  destruct (dataReceived_logged proto data w) as (ls & Hl & Ht & Hw).
  destruct Hw as [->|(p & out & r & Hp & Ho & Hpr)]; [done|].
  pose proof H as [Ha Hb].
  pose proof (inv_tags_alter
    (set_output (Some (mkLineLogger (tag out) r))) proto w) as Hal.
  eapply (inv_tags_logged (set_protos _ w)); [exact Hpr | exact Hl | |].
  - intros m Hm. exists proto.
    eexists. simpl. rewrite list_lookup_alter_eq, Hp. simpl.
    split; [done|]. simpl.
    destruct (Ht m Hm) as (p' & out' & Hp' & Ho' & ->).
    simplify_eq. symmetry. by eapply (Ha proto).
  - apply Hal; [|done]. intros q Hq. simplify_eq. split; [done|].
    simpl. intros ? [= <-]. simpl. by eapply (Ha proto).
Qed.

Lemma inv_tags_same_outputs g i w :
  (∀ p, lp_name (g p) = lp_name p ∧ lp_output (g p) = lp_output p) →
  inv_tags w → inv_tags (set_protos (alter g i) w).
Proof.
  intros Hg H. apply inv_tags_alter; [|done]. intros p Hp.
  destruct (Hg p) as [Hn Ho]. split; [done|]. rewrite Ho.
  destruct H as [Ha _]. intros out. by apply (Ha i).
Qed.

Lemma inv_tags_obligations cfg : step_obligations inv_tags cfg.
Proof.
  assert (Hf : ∀ {A} (m : M A),
    (∀ w, protos (m w).2 = protos w ∧ logged (m w).2 = logged w) →
    preserves inv_tags m).
  { intros A m Hm w. destruct (Hm w). by apply inv_tags_frame. }
  split.
  - intros name w H.
    destruct (protocols w !! name) as [proto|] eqn:Hp.
    { by rewrite startProcess_live. }
    destruct (_processes w !! name) as [process|] eqn:Hr.
    2:{ by rewrite startProcess_unregistered. }
    destruct (args process) as [|executable rest] eqn:Ha.
    + rewrite (startProcess_no_args _ _ process) by done. simpl.
      eapply inv_tags_frame; [| |apply (inv_tags_push
        (mkLoggingProtocol name true None None) w); [done|exact H]]; done.
    + rewrite (startProcess_spawns _ _ process executable rest) by done.
      unfold spawned.
      eapply inv_tags_frame; [| |apply (inv_tags_push
        (mkLoggingProtocol name true (Some (mkLineLogger name []))
           (Some (mkTransport Alive [] executable process))) w);
        [by intros ? [= <-]|exact H]]; done.
  - intros name.
    unfold stopProcess, signalProcess, callLater, update_proto, seconds.
    pres; first [done | by apply inv_tags_same_outputs
                | match goal with
                  | H : inv_tags ?w |- _ => by apply (inv_tags_frame w)
                  end].
  - intros proc. unfold _forceStopProcess, signalProcess, update_proto.
    pres; by apply inv_tags_same_outputs.
  - intros proto data. unfold outReceived, outReceived_with. pres.
    + apply inv_tags_dataReceived.
    + intros w H. by apply inv_tags_same_outputs.
  - intros proto w H _. by apply inv_tags_same_outputs.
  - intros proto w H _. revert w H.
    change (preserves inv_tags
              (set_status Ended proto ;;; processEnded cfg proto)).
    unfold processEnded. pres.
    + intros w H. by apply inv_tags_same_outputs.
    + apply inv_tags_dataReceived.
    + apply Hf. intros w. split; [apply connectionLost_protos|].
      by mrun.
  - intros v w. by apply inv_tags_frame.
  - intros f w. by apply inv_tags_frame.
  - intros f w. by apply inv_tags_frame.
  - intros name w. by apply inv_tags_frame.
  - intros v w. by apply inv_tags_frame.
  - intros dc w H _. revert H. unfold cancel, modify. simpl.
    by apply inv_tags_frame.
  - intros dc w H _. revert H. by apply inv_tags_frame.
Qed.

Lemma inv_tags_reachable cfg w : reachable cfg w → inv_tags w.
Proof.
  intros [evs Hr].
  eapply run_preserves; [apply inv_tags_obligations | done |].
  split; [by intros ??? [=]|]. by intros ? []%elem_of_nil.
Qed.

(** X12: what a process writes is logged under its name.  In every store
    the monitor can reach, a line logger carries the name of its protocol
    instance, every message in the log carries the name of a protocol
    instance the monitor created, and [outReceived] appends to the log
    only messages that carry the name of the protocol instance it was
    called on. *)
Theorem log_carries_process_names cfg w :
  reachable cfg w →
  (∀ proto p out, protos w !! proto = Some p → lp_output p = Some out →
     tag out = lp_name p)
  ∧ (∀ m, m ∈ logged w →
       ∃ proto p, protos w !! proto = Some p ∧ lp_name p = msg_tag m)
  ∧ (∀ proto p data, protos w !! proto = Some p →
       ∃ ls, logged (outReceived proto data w).2 = logged w ++ ls
         ∧ ∀ m, m ∈ ls → msg_tag m = lp_name p).
Proof.
  intros Hr. destruct (inv_tags_reachable cfg w Hr) as [Ha Hb].
  split; [exact Ha|]. split; [exact Hb|].
  intros proto p data Hp.
  destruct (dataReceived_logged proto data w) as (ls & Hl & Ht & _).
  exists ls. split.
  - unfold outReceived, outReceived_with, bind.
    destruct (dataReceived proto data w) as [[[]|e] w1]; simpl in *;
      [|done].
    by destruct (bytes_getitem_last data).
  - intros m Hm. destruct (Ht m Hm) as (p' & out & Hp' & Ho & ->).
    simplify_eq. by eapply (Ha proto).
Qed.

Lemma log_carries_process_names_witness :
  reachable defaults w_logged
  ∧ (∀ m, m ∈ logged w_logged →
       ∃ proto p, protos w_logged !! proto = Some p
         ∧ lp_name p = msg_tag m)
  ∧ logged w_logged = [mkLogMsg "foo" (bytes_lit "up")].
Proof.
  assert (H : reachable defaults w_logged)
    by (apply reachable_after; eexists; compute_eq).
  split; [exact H|].
  split; [exact (proj1 (proj2 (log_carries_process_names _ _ H)))|].
  compute_eq.
Defined.

Lemma alter_same {A} (f : A → A) (l : list A) i x :
  l !! i = Some x → f x = x → alter f i l = l.
Proof.
  intros Hx Hf. apply list_eq. intros j.
  destruct (decide (i = j)) as [->|Hne].
  - by rewrite list_lookup_alter_eq, Hx; simpl; rewrite Hf.
  - by rewrite list_lookup_alter_ne.
Qed.

(** X13: [outReceived] with no data does not return: in [data[-1]] the
    index is out of range.  The logger was given the empty data before,
    which changes nothing, so that the store is as it was; the same goes
    for [errReceived]. *)
Theorem outReceived_no_data proto w p :
  protos w !! proto = Some p → is_Some (lp_output p) →
  outReceived proto [] w = (Raise IndexError, w)
  ∧ errReceived proto [] w = (Raise IndexError, w).
Proof.
  intros Hp [out Ho].
  assert (E : outReceived proto [] w = (Raise IndexError, w)); [|done].
  unfold outReceived, outReceived_with, dataReceived, bind, get_proto,
    update_proto, modify.
  rewrite Hp. simpl. rewrite Ho. simpl.
  unfold raise, set_protos. rewrite (alter_same _ _ _ p Hp).
  - by destruct w.
  - destruct p, out. simpl in *. by rewrite Ho.
Qed.

Lemma outReceived_no_data_witness :
  (∃ p, protos w_running !! 0%nat = Some p ∧ is_Some (lp_output p))
  ∧ outReceived 0 [] w_running = (Raise IndexError, w_running).
Proof.
  assert (Hp : protos w_running !! 0%nat =
    Some (mkLoggingProtocol "foo" true (Some (mkLineLogger "foo" []))
            (Some (mkTransport Alive [] "foo"
                     (mk_Process ["foo"] None None ∅ None)))))
    by compute_eq.
  split; [eexists; split; [exact Hp | by eexists]|].
  exact (proj1 (outReceived_no_data 0 w_running _ Hp
                  (mk_is_Some _ _ eq_refl))).
Defined.
